(** * wrapkit: access control, rate limiting, queueing and the hook pipeline

    A shallow embedding of the TypeScript sources of wrapkit
    ([glob.ts], [rate-limiter.ts], [queue.ts], [plugin.ts], [state.ts],
    [wrap.ts]) and the properties of its documented behaviour.

    Conventions of the embedding:
    - a JS string is a [string]; its characters are 8-bit code units, so of
      the four JS line terminators only LF and CR occur;
    - a JS number is a [num]: an exact rational, [+Infinity], [-Infinity] or
      [NaN] (rounding and the sign of zero are not modelled);
    - a [Map] is a [gmap]; an array is a [list];
    - mutation of a shared object is explicit state passing on the record
      that holds it;
    - [Date.now()] is a parameter [now] of every synchronous section. *)

From Stdlib Require Import String Ascii.
From stdpp Require Import gmap strings list.
From Stdlib Require Import QArith Qround Lia Lqa.
Local Close Scope Q_scope.
Local Open Scope string_scope.
Local Open Scope list_scope.

(** ** Strings *)

Module Str.

Abbreviation chars := (list ascii).

Definition dot : ascii := "."%char.
Definition LF : ascii := "010"%char.
Definition CR : ascii := "013"%char.
Definition dquote : string := String "034"%char EmptyString.
Definition backslash : ascii := "092"%char.

(** [s.split('.')]: always at least one part. *)
Fixpoint split_dot (s : chars) : list chars :=
  match s with
  | [] => [[]]
  | c :: s' =>
      if Ascii.eqb c dot then [] :: split_dot s'
      else match split_dot s' with
           | [] => [[c]]
           | part :: rest => (c :: part) :: rest
           end
  end.

(** [parts.join(sep)]. *)
Fixpoint join {A : Type} (sep : list A) (parts : list (list A)) : list A :=
  match parts with
  | [] => []
  | [p] => p
  | p :: ps => p ++ sep ++ join sep ps
  end.

(** What [join] puts after the first part. *)
Definition tailOf {A : Type} (sep : A) (parts : list (list A)) : list A :=
  flat_map (cons sep) parts.

(** The dotted method path of a sequence of property names, as the proxy
    handler builds it: [ctx.path ? `${ctx.path}.${propName}` : propName]. *)
Definition joinPath (segments : list chars) : string :=
  string_of_list_ascii (join [dot] segments).

End Str.

(** ** glob.ts *)

Module Glob.
Import Str.

(** The regular expressions [patternToRegex] builds: a sequence of literal
    characters and of [.+] and [[^.]+] items, anchored at both ends. *)
Inductive CharClass : Type :=
| AnyChar    (* [.]    : any character except a line terminator *)
| NotDot.    (* [[^.]] : any character except the dot *)

Inductive Atom : Type :=
| Lit (c : ascii)
| Plus (cls : CharClass).

Definition Regex : Type := list Atom.

Definition isLineTerminator (c : ascii) : bool :=
  Ascii.eqb c LF || Ascii.eqb c CR.

Definition inClass (cls : CharClass) (c : ascii) : bool :=
  match cls with
  | AnyChar => negb (isLineTerminator c)
  | NotDot => negb (Ascii.eqb c dot)
  end.

(** [cls+] followed by the rest of the expression [k]: one or more
    characters of the class, with backtracking over how many. *)
Fixpoint plus (cls : CharClass) (k : chars -> bool) (s : chars) : bool :=
  match s with
  | [] => false
  | c :: s' => inClass cls c && (k s' || plus cls k s')
  end.

(** [/^r$/.test(s)]. *)
Fixpoint test (r : Regex) (s : chars) {struct r} : bool :=
  match r with
  | [] => match s with [] => true | _ => false end
  | Lit c :: r' =>
      match s with
      | c' :: s' => Ascii.eqb c c' && test r' s'
      | [] => false
      end
  | Plus cls :: r' => plus cls (test r') s
  end.

(** The characters [escapeRegex] escapes:
    [. * + ? ^ $ { } ( ) | [ ] \]. *)
Definition isSyntaxChar (c : ascii) : bool :=
  existsb (Ascii.eqb c)
    [ "."%char; "*"%char; "+"%char; "?"%char; "^"%char; "$"%char; "{"%char;
      "}"%char; "("%char; ")"%char; "|"%char; "["%char; "]"%char; backslash ].

(** [str.replace(/[.*+?^${}()|[\]\\]/g, '\\$&')]. *)
Definition escapeRegex (str : chars) : chars :=
  flat_map (fun c => if isSyntaxChar c then [backslash; c] else [c]) str.

(** The body of the loop of [patternToRegex]: what a part pushes on
    [regexParts]. *)
Definition regexPartSource (part : chars) : chars :=
  if decide (part = ["*"; "*"]%char) then [ "."; "+" ]%char
  else if decide (part = ["*"]%char) then [ "["; "^"; "."; "]"; "+" ]%char
  else escapeRegex part.

(** The source text of the regular expression of a pattern:
    [`^${regexParts.join('\\.')}$`]. *)
Definition regexSource (pattern : string) : chars :=
  let parts := split_dot (list_ascii_of_string pattern) in
  let regexParts := map regexPartSource parts in
  ["^"%char] ++ join [backslash; dot] regexParts ++ ["$"%char].

(** [new RegExp(source)], on the expressions [regexSource] writes: a
    backslash followed by a syntax character is that character, [.+] and
    [[^.]+] are the two repetitions, any other character that is not a
    syntax character is itself. Anything else is not read ([None]). *)
Fixpoint readItems (source : chars) : option Regex :=
  match source with
  | [] => Some []
  | c :: s1 =>
      if Ascii.eqb c backslash then
        match s1 with
        | e :: s2 => if isSyntaxChar e then cons (Lit e) <$> readItems s2 else None
        | [] => None
        end
      else if Ascii.eqb c "." then
        match s1 with
        | p :: s2 =>
            if Ascii.eqb p "+" then cons (Plus AnyChar) <$> readItems s2 else None
        | [] => None
        end
      else if Ascii.eqb c "[" then
        match s1 with
        | c1 :: c2 :: c3 :: c4 :: s5 =>
            if Ascii.eqb c1 "^" && Ascii.eqb c2 "." && Ascii.eqb c3 "]"
               && Ascii.eqb c4 "+"
            then cons (Plus NotDot) <$> readItems s5
            else None
        | _ => None
        end
      else if isSyntaxChar c then None
      else cons (Lit c) <$> readItems s1
  end.

Definition RegExp (source : chars) : option Regex :=
  match source with
  | c :: rest =>
      if Ascii.eqb c "^" then
        match rev rest with
        | d :: body => if Ascii.eqb d "$" then readItems (rev body) else None
        | [] => None
        end
      else None
  | [] => None
  end.

Definition patternToRegex (pattern : string) : option Regex :=
  RegExp (regexSource pattern).

(** [regex.test(methodPath)]; the constructor never throws on the source of
    a pattern ([RegExp_regexSource]). *)
Definition matchPattern (methodPath pattern : string) : bool :=
  match patternToRegex pattern with
  | Some regex => test regex (list_ascii_of_string methodPath)
  | None => false
  end.

(** What the source of a pattern is read back as. *)
Definition literally (part : chars) : Regex := map Lit part.

Definition regexPart (part : chars) : Regex :=
  if decide (part = ["*"; "*"]%char) then [Plus AnyChar]
  else if decide (part = ["*"]%char) then [Plus NotDot]
  else literally part.

Definition compiled (pattern : string) : Regex :=
  join [Lit dot] (map regexPart (split_dot (list_ascii_of_string pattern))).

Definition matchesAnyPattern (methodPath : string) (patterns : list string) : bool :=
  existsb (matchPattern methodPath) patterns.

Record AccessCheckResult : Type := {
  isAllowed : bool;
  reason : option string
}.

Definition blockedReason (methodPath : string) : string :=
  "Method " +:+ dquote +:+ methodPath +:+ dquote +:+ " is blocked".

Definition notAllowedReason (methodPath : string) : string :=
  "Method " +:+ dquote +:+ methodPath +:+ dquote +:+ " is not allowed".

(** [blocklist && ...]: an array is truthy even when empty, so a list is
    consulted whenever it is configured. *)
Definition checkAccess (methodPath : string)
    (allowlist blocklist : option (list string)) : AccessCheckResult :=
  if match blocklist with
     | Some bl => matchesAnyPattern methodPath bl
     | None => false
     end
  then {| isAllowed := false; reason := Some (blockedReason methodPath) |}
  else if match allowlist with
          | Some al => negb (matchesAnyPattern methodPath al)
          | None => false
          end
  then {| isAllowed := false; reason := Some (notAllowedReason methodPath) |}
  else {| isAllowed := true; reason := None |}.





Definition noLineTerminator (seg : chars) : Prop :=
  Forall (fun c => isLineTerminator c = false) seg.



End Glob.

(** ** JS numbers *)

Module JsNum.

(** A JS number: an exact rational, an infinity or [NaN]. Arithmetic
    follows IEEE 754 on the special values. *)
Inductive num : Type :=
| Fin (q : Q)
| PInf
| NInf
| NaN.

Definition ofZ (z : Z) : num := Fin (inject_Z z).

Definition isPos (q : Q) : bool := negb (Qle_bool q 0).
Definition isZero (q : Q) : bool := Qeq_bool q 0.

Definition neg (a : num) : num :=
  match a with
  | Fin q => Fin (- q)
  | PInf => NInf
  | NInf => PInf
  | NaN => NaN
  end.

Definition add (a b : num) : num :=
  match a, b with
  | NaN, _ | _, NaN => NaN
  | Fin x, Fin y => Fin (x + y)
  | PInf, NInf | NInf, PInf => NaN
  | PInf, _ | _, PInf => PInf
  | NInf, _ | _, NInf => NInf
  end.

Definition sub (a b : num) : num := add a (neg b).

(** The infinity of the sign of [q], and [NaN] for zero: [q * Infinity]. *)
Definition scaleInf (q : Q) : num :=
  if isZero q then NaN else if isPos q then PInf else NInf.

Definition mul (a b : num) : num :=
  match a, b with
  | NaN, _ | _, NaN => NaN
  | Fin x, Fin y => Fin (x * y)
  | Fin x, PInf | PInf, Fin x => scaleInf x
  | Fin x, NInf | NInf, Fin x => neg (scaleInf x)
  | PInf, PInf | NInf, NInf => PInf
  | PInf, NInf | NInf, PInf => NInf
  end.

Definition div (a b : num) : num :=
  match a, b with
  | NaN, _ | _, NaN => NaN
  | Fin x, Fin y => if isZero y then scaleInf x else Fin (x / y)
  | Fin _, PInf | Fin _, NInf => Fin 0
  | PInf, Fin y => if isZero y || isPos y then PInf else NInf
  | NInf, Fin y => if isZero y || isPos y then NInf else PInf
  | PInf, _ | NInf, _ => NaN
  end.

(** [a >= b]; false as soon as one side is [NaN]. *)
Definition ge (a b : num) : bool :=
  match a, b with
  | NaN, _ | _, NaN => false
  | Fin x, Fin y => Qle_bool y x
  | PInf, _ | _, NInf => true
  | _, PInf | NInf, _ => false
  end.

(** [Math.min] and [Math.max]; [NaN] as soon as one argument is [NaN]. *)
Definition min (a b : num) : num :=
  match a, b with
  | NaN, _ | _, NaN => NaN
  | _, _ => if ge a b then b else a
  end.

Definition max (a b : num) : num :=
  match a, b with
  | NaN, _ | _, NaN => NaN
  | _, _ => if ge a b then a else b
  end.

(** [Math.ceil]. *)
Definition ceil (a : num) : num :=
  match a with
  | Fin q => ofZ (Qceiling q)
  | _ => a
  end.

(** The truth value of a number in a condition: [0] and [NaN] are falsy. *)
Definition truthy (a : num) : bool :=
  match a with
  | Fin q => negb (isZero q)
  | PInf | NInf => true
  | NaN => false
  end.

(** [x ? ... : ...] on a property that may be absent. *)
Definition truthyOpt (a : option num) : bool :=
  match a with
  | Some x => truthy x
  | None => false
  end.

Global Arguments neg : simpl never.
Global Arguments add : simpl never.
Global Arguments sub : simpl never.
Global Arguments mul : simpl never.
Global Arguments div : simpl never.
Global Arguments ge : simpl never.
Global Arguments min : simpl never.
Global Arguments max : simpl never.
Global Arguments ceil : simpl never.
Global Arguments truthy : simpl never.
Global Arguments ofZ : simpl never.

End JsNum.

(** ** rate-limiter.ts *)

Module RateLimiter.
Import JsNum.

(** The fields of [RateLimitConfig] the limiter reads ([requests], [per]
    and [strategy] are declared and never read). *)
Record RateLimitConfig : Type := {
  requestsPerSecond : option num;
  requestsPerMinute : option num;
  concurrency : option num
}.

(** A configuration object is per-method when it has a [default] or a
    [perMethod] key, and flat otherwise. *)
Inductive Config : Type :=
| Flat (c : RateLimitConfig)
| PerMethod (default : option RateLimitConfig)
            (perMethod : option (gmap string RateLimitConfig)).

Record TokenBucket : Type := {
  tokens : num;
  lastRefill : Z;
  tokensPerMs : num;
  maxTokens : num
}.

Record RateLimiterState : Type := {
  buckets : gmap string TokenBucket;
  concurrentCount : gmap string Z;
  config : Config
}.

Record AcquireResult : Type := {
  canProceed : bool;
  delayMs : num
}.

Definition getConfigForMethod (cfg : Config) (methodPath : string)
    : option RateLimitConfig :=
  match cfg with
  | Flat c => Some c
  | PerMethod dflt perMethod =>
      match perMethod ≫= (fun m => m !! methodPath) with
      | Some c => Some c
      | None => dflt
      end
  end.

Definition getRequestsPerSecond (c : RateLimitConfig) : num :=
  if truthyOpt (requestsPerSecond c) then default NaN (requestsPerSecond c)
  else if truthyOpt (requestsPerMinute c)
  then div (default NaN (requestsPerMinute c)) (ofZ 60)
  else PInf.

Definition createBucket (c : RateLimitConfig) (now : Z) : TokenBucket :=
  let rps := getRequestsPerSecond c in
  let tokensPerMs := div rps (ofZ 1000) in
  let maxTokens := max (ofZ 1) (ceil rps) in
  {| tokens := maxTokens;
     lastRefill := now;
     tokensPerMs := tokensPerMs;
     maxTokens := maxTokens |}.

Definition refillBucket (bucket : TokenBucket) (now : Z) : TokenBucket :=
  let elapsed := (now - lastRefill bucket)%Z in
  let newTokens := mul (ofZ elapsed) (tokensPerMs bucket) in
  {| tokens := min (maxTokens bucket) (add (tokens bucket) newTokens);
     lastRefill := now;
     tokensPerMs := tokensPerMs bucket;
     maxTokens := maxTokens bucket |}.

Definition createRateLimiter (cfg : Config) : RateLimiterState :=
  {| buckets := ∅; concurrentCount := ∅; config := cfg |}.

Definition unlimited : RateLimitConfig :=
  {| requestsPerSecond := Some PInf;
     requestsPerMinute := None;
     concurrency := None |}.

(** The bucket of a path, created on first use. The flag tells whether the
    bucket returned is the object held in [buckets] (later writes to it
    are seen there) or a fresh one that no map holds. *)
Definition getBucket (state : RateLimiterState) (methodPath : string) (now : Z)
    : RateLimiterState * TokenBucket * bool :=
  match getConfigForMethod (config state) methodPath with
  | None => (state, createBucket unlimited now, false)
  | Some methodConfig =>
      match buckets state !! methodPath with
      | Some bucket => (state, bucket, true)
      | None =>
          let bucket := createBucket methodConfig now in
          ({| buckets := <[methodPath := bucket]> (buckets state);
              concurrentCount := concurrentCount state;
              config := config state |}, bucket, true)
      end
  end.

(** A write to the bucket object obtained from [getBucket]. *)
Definition writeBucket (held : bool) (methodPath : string)
    (bucket : TokenBucket) (state : RateLimiterState) : RateLimiterState :=
  if held then
    {| buckets := <[methodPath := bucket]> (buckets state);
       concurrentCount := concurrentCount state;
       config := config state |}
  else state.

Definition currentCount (state : RateLimiterState) (methodPath : string) : Z :=
  default 0%Z (concurrentCount state !! methodPath).

Definition incrementConcurrent (state : RateLimiterState) (methodPath : string)
    : RateLimiterState :=
  let current := currentCount state methodPath in
  {| buckets := buckets state;
     concurrentCount := <[methodPath := (current + 1)%Z]> (concurrentCount state);
     config := config state |}.

Definition decrementConcurrent (state : RateLimiterState) (methodPath : string)
    : RateLimiterState :=
  let current := currentCount state methodPath in
  {| buckets := buckets state;
     concurrentCount :=
       <[methodPath := Z.max 0 (current - 1)]> (concurrentCount state);
     config := config state |}.

Definition tryAcquire (state : RateLimiterState) (methodPath : string) (now : Z)
    : RateLimiterState * AcquireResult :=
  let methodConfig := getConfigForMethod (config state) methodPath in
  let cap := methodConfig ≫= concurrency in
  if truthyOpt cap &&
     ge (ofZ (currentCount state methodPath)) (default NaN cap)
  then (state, {| canProceed := false; delayMs := ofZ 50 |})
  else
    let '(state1, bucket0, held) := getBucket state methodPath now in
    let bucket := refillBucket bucket0 now in
    if ge (tokens bucket) (ofZ 1) then
      let bucket' :=
        {| tokens := sub (tokens bucket) (ofZ 1);
           lastRefill := lastRefill bucket;
           tokensPerMs := tokensPerMs bucket;
           maxTokens := maxTokens bucket |} in
      (incrementConcurrent (writeBucket held methodPath bucket' state1) methodPath,
       {| canProceed := true; delayMs := ofZ 0 |})
    else
      let tokensNeeded := sub (ofZ 1) (tokens bucket) in
      (writeBucket held methodPath bucket state1,
       {| canProceed := false;
          delayMs := ceil (div tokensNeeded (tokensPerMs bucket)) |}).

(** The bucket an attempt works on, and what its refill computes:
    [min(maxTokens, tokens + elapsed * tokensPerMs)]. *)
Definition bucketOf (state : RateLimiterState) (methodPath : string) (now : Z)
    : TokenBucket :=
  (getBucket state methodPath now).1.2.

Definition refilled (bucket : TokenBucket) (now : Z) : num :=
  min (maxTokens bucket)
      (add (tokens bucket)
           (mul (ofZ (now - lastRefill bucket)) (tokensPerMs bucket))).

(** The concurrency cap an attempt on a path is checked against: the
    [concurrency] of the path's configuration when it is truthy. *)
Definition capOf (state : RateLimiterState) (methodPath : string) : option num :=
  match getConfigForMethod (config state) methodPath ≫= concurrency with
  | Some cap => if truthy cap then Some cap else None
  | None => None
  end.

(** [0 <= tokens && tokens <= maxTokens], with the comparisons of JS. *)
Definition inRange (bucket : TokenBucket) : bool :=
  ge (tokens bucket) (ofZ 0) && ge (maxTokens bucket) (tokens bucket).

(** A sequence of acquisition attempts, each on a path at a clock reading. *)
Fixpoint attempts (state : RateLimiterState) (calls : list (string * Z))
    : RateLimiterState :=
  match calls with
  | [] => state
  | (methodPath, now) :: rest => attempts (tryAcquire state methodPath now).1 rest
  end.

(** A configuration whose every entry sets a finite positive rate. *)
Definition finiteRate (c : RateLimitConfig) : Prop :=
  exists q : Q, (0 < q)%Q /\ getRequestsPerSecond c = Fin q.

Definition allFinite (cfg : Config) : Prop :=
  forall methodPath c, getConfigForMethod cfg methodPath = Some c -> finiteRate c.

(** A bucket of finite non-negative level, capacity and rate, last
    refilled no later than [now]. *)
Definition finiteBucket (bucket : TokenBucket) (now : Z) : Prop :=
  exists t m r : Q,
    tokens bucket = Fin t /\ maxTokens bucket = Fin m /\
    tokensPerMs bucket = Fin r /\
    (0 <= t)%Q /\ (t <= m)%Q /\ (0 <= r)%Q /\ (lastRefill bucket <= now)%Z.

Definition finiteBuckets (state : RateLimiterState) (now : Z) : Prop :=
  forall methodPath bucket,
    buckets state !! methodPath = Some bucket -> finiteBucket bucket now.

(** Clock readings that never go back, from [start] on. *)
Fixpoint monotoneFrom (start : Z) (calls : list (string * Z)) : Prop :=
  match calls with
  | [] => True
  | (_, now) :: rest => (start <= now)%Z /\ monotoneFrom now rest
  end.








(** Sample configurations. *)
Definition twoPerSecond : Config :=
  Flat {| requestsPerSecond := Some (ofZ 2);
          requestsPerMinute := None;
          concurrency := None |}.

Definition capOnly : Config :=
  Flat {| requestsPerSecond := None;
          requestsPerMinute := None;
          concurrency := Some (ofZ 2) |}.

Definition slowOnly : Config :=
  PerMethod None
    (Some {[ "slow" := {| requestsPerSecond := Some (ofZ 1);
                          requestsPerMinute := None;
                          concurrency := None |} ]}).

Definition capAndRate : Config :=
  Flat {| requestsPerSecond := Some (ofZ 1000);
          requestsPerMinute := None;
          concurrency := Some (ofZ 2) |}.

Definition capZero : Config :=
  Flat {| requestsPerSecond := Some (ofZ 10);
          requestsPerMinute := None;
          concurrency := Some (ofZ 0) |}.

End RateLimiter.

(** ** queue.ts *)

Module Queue.
Import JsNum.

Inductive Priority : Type := critical | high | normal | low.

Definition PRIORITY_ORDER (p : Priority) : Z :=
  match p with
  | critical => 0
  | high => 1
  | normal => 2
  | low => 3
  end.

Record QueueConfig : Type := {
  concurrency : option num;
  timeout : option num;
  maxSize : option num
}.

(** A queued request. [E] is what [execute] holds: the call to run. The
    [resolve] and [reject] of the source settle the promise that [enqueue]
    returned for this request; the [id] names that promise here. *)
Record QueuedRequest (E : Type) : Type := {
  id : Z;
  priority : Priority;
  execute : E;
  methodPath : string
}.
Global Arguments id {E} _.
Global Arguments priority {E} _.
Global Arguments execute {E} _.
Global Arguments methodPath {E} _.

(** [onQueueChange] is declared optional and never set: it is left out. *)
Record QueueState (E : Type) : Type := {
  queue : list (QueuedRequest E);
  running : Z;
  paused : bool;
  nextId : Z;
  config : QueueConfig
}.
Global Arguments queue {E} _.
Global Arguments running {E} _.
Global Arguments paused {E} _.
Global Arguments nextId {E} _.
Global Arguments config {E} _.

Section WithExecutor.
Context {E : Type}.

Definition createQueue (cfg : QueueConfig) : QueueState E :=
  {| queue := []; running := 0; paused := false; nextId := 0; config := cfg |}.

Definition sortByPriority (a b : QueuedRequest E) : Z :=
  let priorityDiff := (PRIORITY_ORDER (priority a) - PRIORITY_ORDER (priority b))%Z in
  if negb (priorityDiff =? 0)%Z then priorityDiff else (id a - id b)%Z.

(** [Array.prototype.sort] with a comparator: a stable sort. *)
Fixpoint insertSorted (cmp : QueuedRequest E -> QueuedRequest E -> Z)
    (x : QueuedRequest E) (l : list (QueuedRequest E)) : list (QueuedRequest E) :=
  match l with
  | [] => [x]
  | y :: l' => if (cmp x y <=? 0)%Z then x :: y :: l' else y :: insertSorted cmp x l'
  end.

Definition sort (cmp : QueuedRequest E -> QueuedRequest E -> Z)
    (l : list (QueuedRequest E)) : list (QueuedRequest E) :=
  foldr (insertSorted cmp) [] l.

Definition canProcessNext (state : QueueState E) : bool :=
  if paused state then false
  else
    let concurrency := default PInf (concurrency (config state)) in
    if ge (ofZ (running state)) concurrency then false
    else bool_decide (0 < length (queue state)).

(** One admission: the queue is sorted in place, its head is removed,
    [running] grows by one and the head starts executing. The request that
    starts is returned; what it does from there is the caller's. *)
Definition processNext (state : QueueState E)
    : QueueState E * option (QueuedRequest E) :=
  if negb (canProcessNext state) then (state, None)
  else
    match sort sortByPriority (queue state) with
    | [] =>
        ({| queue := []; running := running state; paused := paused state;
            nextId := nextId state; config := config state |}, None)
    | request :: rest =>
        ({| queue := rest; running := (running state + 1)%Z;
            paused := paused state; nextId := nextId state;
            config := config state |}, Some request)
    end.

(** The [finally] of a started request, when its execution or its timer has
    settled. *)
Definition settle (state : QueueState E) : QueueState E * option (QueuedRequest E) :=
  processNext
    {| queue := queue state; running := (running state - 1)%Z;
       paused := paused state; nextId := nextId state; config := config state |}.

Inductive EnqueueResult : Type :=
| Rejected (message : string)
| Accepted (requestId : Z) (state : QueueState E)
           (started : option (QueuedRequest E)).

Definition enqueue (state : QueueState E) (path : string) (prio : Priority)
    (exec : E) : EnqueueResult :=
  let maxSize := default PInf (maxSize (config state)) in
  if ge (ofZ (Z.of_nat (length (queue state)))) maxSize then
    Rejected "Queue is full"
  else
    let request :=
      {| id := nextId state; priority := prio; execute := exec;
         methodPath := path |} in
    let state1 :=
      {| queue := queue state ++ [request]; running := running state;
         paused := paused state; nextId := (nextId state + 1)%Z;
         config := config state |} in
    let '(state2, started) := processNext state1 in
    Accepted (id request) state2 started.

Definition pauseQueue (state : QueueState E) : QueueState E :=
  {| queue := queue state; running := running state; paused := true;
     nextId := nextId state; config := config state |}.

Definition resumeQueue (state : QueueState E)
    : QueueState E * option (QueuedRequest E) :=
  processNext
    {| queue := queue state; running := running state; paused := false;
       nextId := nextId state; config := config state |}.

(** [clearQueue] empties the queue; the requests it returns are rejected
    with "Queue cleared". *)
Definition clearQueue (state : QueueState E)
    : QueueState E * list (QueuedRequest E) :=
  ({| queue := []; running := running state; paused := paused state;
      nextId := nextId state; config := config state |}, queue state).

Definition getQueueSize (state : QueueState E) : Z :=
  Z.of_nat (length (queue state)).

Definition getRunningCount (state : QueueState E) : Z := running state.

(** The state an accepted [enqueue] leaves, and the state itself when the
    request was rejected. *)
Definition afterEnqueue (state : QueueState E) (r : EnqueueResult) : QueueState E :=
  match r with
  | Rejected _ => state
  | Accepted _ state' _ => state'
  end.

(** The queued requests have distinct identifiers, all of them handed out
    already. *)
Definition freshIds (state : QueueState E) : Prop :=
  Forall (fun r => (id r < nextId state)%Z) (queue state) /\
  NoDup (map id (queue state)).

(** [r] is started out of [before] and leaves [after] waiting: it is one
    of the requests of [before], and every request left has a lower
    priority, or the same priority and a later identifier. *)
Definition startsFirst (r : QueuedRequest E)
    (before after : list (QueuedRequest E)) : Prop :=
  before ≡ₚ r :: after /\
  forall x, x ∈ after ->
    (PRIORITY_ORDER (priority r) < PRIORITY_ORDER (priority x))%Z \/
    (priority x = priority r /\ (id r < id x)%Z).

(** Nothing is left to start: the queue is paused, or [running] has reached
    [concurrency], or the queue is empty. *)
Definition drained (state : QueueState E) : Prop := canProcessNext state = false.

End WithExecutor.

(** Sample: a queue of two slots, paused, two calls enqueued, then resumed. *)
Definition twoSlots : QueueConfig :=
  {| concurrency := Some (ofZ 2); timeout := None; maxSize := None |}.

Definition pausedBacklog : QueueState string :=
  let q0 := pauseQueue (createQueue twoSlots) in
  let q1 := afterEnqueue q0 (enqueue q0 "fast" normal "first") in
  afterEnqueue q1 (enqueue q1 "fast" normal "second").

Definition oneSlot : QueueConfig :=
  {| concurrency := Some (ofZ 1); timeout := None; maxSize := None |}.

Definition pausedPriorities : QueueState string :=
  let q0 := pauseQueue (createQueue oneSlot) in
  let q1 := afterEnqueue q0 (enqueue q0 "fast" normal "n") in
  let q2 := afterEnqueue q1 (enqueue q1 "fast" low "l") in
  let q3 := afterEnqueue q2 (enqueue q2 "fast" high "h") in
  afterEnqueue q3 (enqueue q3 "fast" critical "c").

(** The executors in the order a drain of the queue starts them: resume,
    then one settle after the other. *)
Fixpoint dispatchOrder {E : Type} (fuel : nat) (state : QueueState E)
    (started : option (QueuedRequest E)) : list E :=
  match fuel, started with
  | S fuel', Some r =>
      let '(state', next) := settle state in
      execute r :: dispatchOrder fuel' state' next
  | _, _ => []
  end.

End Queue.

(** ** JS values and the effects of user code *)

Module Js.

(** The values that flow through a call: arguments, results, plugin
    contexts and thrown values. [VError] is an instance of [Error]; any
    other value can be thrown as well. *)
Inductive value : Type :=
| VUndefined
| VNull
| VNum (n : Z)
| VStr (s : string)
| VError (message : string).

(** [error instanceof Error]. *)
Definition isError (v : value) : bool :=
  match v with
  | VError _ => true
  | _ => false
  end.

(** The left operand of [??] is replaced when it is [null] or [undefined]. *)
Definition isNullish (v : value) : bool :=
  match v with
  | VUndefined | VNull => true
  | _ => false
  end.

Definition orElse (v fallback : value) : value :=
  if isNullish v then fallback else v.

(** User code (the wrapped callable, a hook, a plugin hook) runs on the
    user's own state [U]; it returns a value ([inl]) or throws one ([inr]).
    An asynchronous result that is awaited is the same thing: resolved or
    rejected. *)
Definition eff (U A : Type) : Type := U -> U * (A + value).


End Js.

(** ** The hook pipeline: what is observed *)

Module Trace.
Import Js.

(** One entry per hook invocation and per call of the wrapped callable, in
    the order they happen. A plugin's [before] is entered with the context
    value it returned. *)
Inductive HookEvent : Type :=
| GlobalBefore (method : string) (args : list value)
| PluginBefore (plugin : string) (returned : value)
| Underlying (method : string) (args : list value)
| PluginAfter (plugin : string) (context : value) (result : value)
| GlobalAfter (method : string) (result : value)
| PluginOnError (plugin : string) (context : value) (error : value)
| GlobalOnError (method : string) (error : value).

(** The state a call runs on: the user's state and the record of hook
    invocations. *)
Record World (U : Type) : Type := {
  user : U;
  log : list HookEvent
}.
Global Arguments user {U} _.
Global Arguments log {U} _.

(** A sequence of awaited steps: each runs on the state the previous one
    left, and a thrown value skips the rest. *)
Definition M (U A : Type) : Type := World U -> World U * (A + value).

Section Monad.
Context {U : Type}.

Definition ret {A : Type} (a : A) : M U A := fun w => (w, inl a).

Definition throw {A : Type} (v : value) : M U A := fun w => (w, inr v).

Definition bind {A B : Type} (m : M U A) (k : A -> M U B) : M U B :=
  fun w =>
    match m w with
    | (w', inl a) => k a w'
    | (w', inr v) => (w', inr v)
    end.

(** [try { body } catch (error) { handler }]. *)
Definition tryCatch {A : Type} (body : M U A) (handler : value -> M U A) : M U A :=
  fun w =>
    match body w with
    | (w', inl a) => (w', inl a)
    | (w', inr v) => handler v w'
    end.

Definition record (e : HookEvent) : M U unit :=
  fun w => ({| user := user w; log := log w ++ [e] |}, inl tt).

(** Running user code: [await Promise.resolve(f(...))]. *)
Definition run {A : Type} (e : eff U A) : M U A :=
  fun w =>
    let '(u', r) := e (user w) in
    ({| user := u'; log := log w |}, r).

End Monad.

End Trace.

Declare Scope pipeline_scope.
Delimit Scope pipeline_scope with pipeline.
Notation "'let*' x ':=' m 'in' k" := (Trace.bind m (fun x => k))
  (at level 10, x name, m at level 100, k at level 200,
   format "'[' 'let*'  x  ':='  m  'in' ']' '/' k") : pipeline_scope.

(** ** plugin.ts *)

Module Plugin.
Import Js Trace.
Local Open Scope pipeline_scope.

Record PluginContext : Type := {
  method : string;
  args : list value;
  result : option value
}.

(** A plugin. [after] and [onError] take the context object and, next to
    it, the [context] (and [error]) that the source spreads into it. *)
Record Plugin (U : Type) : Type := {
  name : string;
  before : option (PluginContext -> eff U value);
  after : option (PluginContext -> value -> eff U unit);
  onError : option (PluginContext -> value -> value -> eff U unit)
}.
Global Arguments name {U} _.
Global Arguments before {U} _.
Global Arguments after {U} _.
Global Arguments onError {U} _.

Record PluginExecution (U : Type) : Type := {
  plugin : Plugin U;
  context : value
}.
Global Arguments plugin {U} _.
Global Arguments context {U} _.

Section WithUser.
Context {U : Type}.

(** The loop of [runPluginsBefore], with [executions] what it has pushed so
    far. *)
Fixpoint beforeLoop (plugins : list (Plugin U)) (ctx : PluginContext)
    (executions : list (PluginExecution U)) : M U (list (PluginExecution U)) :=
  match plugins with
  | [] => ret executions
  | p :: rest =>
      match before p with
      | Some hook =>
          let* c := run (hook ctx) in
          let* _ := record (PluginBefore (name p) c) in
          beforeLoop rest ctx (executions ++ [{| plugin := p; context := c |}])
      | None =>
          beforeLoop rest ctx
            (executions ++ [{| plugin := p; context := VUndefined |}])
      end
  end.

Definition runPluginsBefore (plugins : list (Plugin U)) (ctx : PluginContext)
    : M U (list (PluginExecution U)) :=
  beforeLoop plugins ctx [].

Fixpoint afterLoop (reversed : list (PluginExecution U)) (ctx : PluginContext)
    : M U unit :=
  match reversed with
  | [] => ret tt
  | e :: rest =>
      match after (plugin e) with
      | Some hook =>
          let* _ := record (PluginAfter (name (plugin e)) (context e)
                              (default VUndefined (result ctx))) in
          let* _ := run (hook ctx (context e)) in
          afterLoop rest ctx
      | None => afterLoop rest ctx
      end
  end.

Definition runPluginsAfter (executions : list (PluginExecution U))
    (ctx : PluginContext) : M U unit :=
  afterLoop (rev executions) ctx.

Fixpoint onErrorLoop (reversed : list (PluginExecution U)) (ctx : PluginContext)
    (error : value) : M U unit :=
  match reversed with
  | [] => ret tt
  | e :: rest =>
      match onError (plugin e) with
      | Some hook =>
          let* _ := record (PluginOnError (name (plugin e)) (context e) error) in
          let* _ := run (hook ctx (context e) error) in
          onErrorLoop rest ctx error
      | None => onErrorLoop rest ctx error
      end
  end.

Definition runPluginsOnError (executions : list (PluginExecution U))
    (ctx : PluginContext) (error : value) : M U unit :=
  onErrorLoop (rev executions) ctx error.

(** The entries the three loops leave, read off the executions. *)
Definition beforeEvent (e : PluginExecution U) : list HookEvent :=
  match before (plugin e) with
  | Some _ => [PluginBefore (name (plugin e)) (context e)]
  | None => []
  end.



Definition beforeEvents (executions : list (PluginExecution U)) : list HookEvent :=
  flat_map beforeEvent executions.



(** [paired ctx u plugins executions u']: the executions pair the plugins,
    in order, each with the value its own [before] returns when the hooks
    run one after the other from the user state [u], and with [undefined]
    when it has no [before]; [u'] is the user state they leave. *)
Inductive paired (ctx : PluginContext)
    : U -> list (Plugin U) -> list (PluginExecution U) -> U -> Prop :=
| paired_nil u : paired ctx u [] [] u
| paired_before p plugins hook u u1 c executions u' :
    before p = Some hook ->
    hook ctx u = (u1, inl c) ->
    paired ctx u1 plugins executions u' ->
    paired ctx u (p :: plugins) ({| plugin := p; context := c |} :: executions) u'
| paired_plain p plugins u executions u' :
    before p = None ->
    paired ctx u plugins executions u' ->
    paired ctx u (p :: plugins)
      ({| plugin := p; context := VUndefined |} :: executions) u'.





End WithUser.

End Plugin.

(** ** types.ts *)

Module Types.
Import Js JsNum.

(** The hooks of the configuration. [onError] is given the [retry] of its
    helper: the wrapped callable on the arguments of the call. *)
Record WrapHooks (U : Type) : Type := {
  before : option (string -> list value -> eff U (option (list value)));
  after : option (string -> value -> eff U value);
  onError : option (string -> value -> eff U value -> eff U value)
}.
Global Arguments before {U} _.
Global Arguments after {U} _.
Global Arguments onError {U} _.

Record WrapConfig (U : Type) : Type := {
  hooks : option (WrapHooks U);
  rateLimit : option RateLimiter.Config;
  queue : option Queue.QueueConfig;
  allowlist : option (list string);
  blocklist : option (list string)
}.
Global Arguments hooks {U} _.
Global Arguments rateLimit {U} _.
Global Arguments queue {U} _.
Global Arguments allowlist {U} _.
Global Arguments blocklist {U} _.

Record PerCallOptions : Type := {
  timeout : option num;
  priority : option Queue.Priority;
  skipQueue : option bool
}.

Inductive WrapkitEventName : Type :=
| queued | executing | completed | rateLimited | error.

Inductive WrapkitEvent : Type :=
| Queued (method : string) (queueSize : Z)
| Executing (method : string) (concurrent : Z)
| Completed (method : string) (duration : Z)
| RateLimited (method : string) (retryAfter : num)
| ErrorEvent (method : string) (err : value) (willRetry : bool).

Definition eventName (e : WrapkitEvent) : WrapkitEventName :=
  match e with
  | Queued _ _ => queued
  | Executing _ _ => executing
  | Completed _ _ => completed
  | RateLimited _ _ => rateLimited
  | ErrorEvent _ _ _ => error
  end.

Record WrapkitStats : Type := {
  requestsPerMinute : num;
  averageLatency : num;
  errorRate : num;
  totalRequests : num
}.

Definition eventIndex (n : WrapkitEventName) : nat :=
  match n with
  | queued => 0
  | executing => 1
  | completed => 2
  | rateLimited => 3
  | error => 4
  end.

Definition eventOfIndex (i : nat) : WrapkitEventName :=
  match i with
  | 0 => queued
  | 1 => executing
  | 2 => completed
  | 3 => rateLimited
  | _ => error
  end.

#[global] Instance eventName_eq_dec : EqDecision WrapkitEventName.
Proof. solve_decision. Defined.

#[global] Instance eventName_countable : Countable WrapkitEventName.
Proof.
  apply (inj_countable' eventIndex eventOfIndex). by intros [].
Defined.

End Types.

(** ** state.ts *)

Module State.
Import Js JsNum Types.

(** What a view owns. [withOptions] and [use] build a new state object by
    spreading the old one, so a derived view has its own [perCallOptions]
    and [plugins]; [config] is never written. *)
Record WrapperState (U : Type) : Type := {
  config : option (WrapConfig U);
  perCallOptions : option PerCallOptions;
  plugins : list (Plugin.Plugin U)
}.
Global Arguments config {U} _.
Global Arguments perCallOptions {U} _.
Global Arguments plugins {U} _.

(** What [execute] of a queued request closes over:
    [() => executeCore(fn, target, args, hookCtx)]. *)
Record Call (U : Type) : Type := {
  fn : list value -> eff U value;
  args : list value;
  methodPath : string;
  view : WrapperState U
}.
Global Arguments fn {U} _.
Global Arguments args {U} _.
Global Arguments methodPath {U} _.
Global Arguments view {U} _.

(** The objects every view derived from one [wrap] points to: the spread
    copies the references, so a write through one view is seen by all.
    [emitted] records every [emitEvent], and [delivered] every handler
    invocation; handlers are named by a number. *)
Record Shared (U : Type) : Type := {
  stats : WrapkitStats;
  queueState : option (Queue.QueueState (Call U));
  listeners : gmap WrapkitEventName (list nat);
  rateLimiter : option RateLimiter.RateLimiterState;
  latencies : list Z;
  emitted : list WrapkitEvent;
  delivered : list (nat * WrapkitEvent)
}.
Global Arguments stats {U} _.
Global Arguments queueState {U} _.
Global Arguments listeners {U} _.
Global Arguments rateLimiter {U} _.
Global Arguments latencies {U} _.
Global Arguments emitted {U} _.
Global Arguments delivered {U} _.

Section WithUser.
Context {U : Type}.

Definition createInitialState (cfg : option (WrapConfig U)) : Shared U :=
  {| stats := {| requestsPerMinute := ofZ 0; averageLatency := ofZ 0;
                 errorRate := ofZ 0; totalRequests := ofZ 0 |};
     queueState := (cfg ≫= queue) ≫= (fun c => Some (Queue.createQueue c));
     listeners := ∅;
     rateLimiter :=
       (cfg ≫= rateLimit) ≫= (fun c => Some (RateLimiter.createRateLimiter c));
     latencies := [];
     emitted := [];
     delivered := [] |}.

Definition initialView (cfg : option (WrapConfig U)) : WrapperState U :=
  {| config := cfg; perCallOptions := None; plugins := [] |}.

Definition withQueue (s : Shared U) (q : option (Queue.QueueState (Call U)))
    : Shared U :=
  {| stats := stats s; queueState := q; listeners := listeners s;
     rateLimiter := rateLimiter s; latencies := latencies s;
     emitted := emitted s; delivered := delivered s |}.

Definition withLimiter (s : Shared U) (r : option RateLimiter.RateLimiterState)
    : Shared U :=
  {| stats := stats s; queueState := queueState s; listeners := listeners s;
     rateLimiter := r; latencies := latencies s;
     emitted := emitted s; delivered := delivered s |}.

(** [on]: a [Set] holds a handler once, in insertion order. *)
Definition createOn (s : Shared U) (event : WrapkitEventName) (handler : nat)
    : Shared U :=
  let handlers := default [] (listeners s !! event) in
  let handlers' :=
    if bool_decide (handler ∈ handlers) then handlers else handlers ++ [handler] in
  {| stats := stats s; queueState := queueState s;
     listeners := <[event := handlers']> (listeners s);
     rateLimiter := rateLimiter s; latencies := latencies s;
     emitted := emitted s; delivered := delivered s |}.

Definition createOff (s : Shared U) (event : WrapkitEventName) (handler : nat)
    : Shared U :=
  match listeners s !! event with
  | Some handlers =>
      {| stats := stats s; queueState := queueState s;
         listeners :=
           <[event := filter (fun h => h <> handler) handlers]> (listeners s);
         rateLimiter := rateLimiter s; latencies := latencies s;
         emitted := emitted s; delivered := delivered s |}
  | None => s
  end.

Definition emitEvent (s : Shared U) (data : WrapkitEvent) : Shared U :=
  let handlers := default [] (listeners s !! eventName data) in
  {| stats := stats s; queueState := queueState s; listeners := listeners s;
     rateLimiter := rateLimiter s; latencies := latencies s;
     emitted := emitted s ++ [data];
     delivered := delivered s ++ map (fun h => (h, data)) handlers |}.

Definition updateStats (s : Shared U) (latencyMs : Z) : Shared U :=
  let latencies' := latencies s ++ [latencyMs] in
  let sum := foldl (fun a b => add a (ofZ b)) (ofZ 0) latencies' in
  {| stats :=
       {| requestsPerMinute := requestsPerMinute (stats s);
          averageLatency := div sum (ofZ (Z.of_nat (length latencies')));
          errorRate := errorRate (stats s);
          totalRequests := add (totalRequests (stats s)) (ofZ 1) |};
     queueState := queueState s; listeners := listeners s;
     rateLimiter := rateLimiter s; latencies := latencies';
     emitted := emitted s; delivered := delivered s |}.

End WithUser.

End State.

(** ** wrap.ts *)

Module Wrap.
Import Js JsNum Trace Types State.
Local Open Scope pipeline_scope.

Section WithUser.
Context {U : Type}.

Definition createWithOptions (state : WrapperState U) (opts : PerCallOptions)
    : WrapperState U :=
  {| config := config state; perCallOptions := Some opts;
     plugins := plugins state |}.

Definition createUse (state : WrapperState U) (p : Plugin.Plugin U)
    : WrapperState U :=
  {| config := config state; perCallOptions := perCallOptions state;
     plugins := plugins state ++ [p] |}.

Definition runBeforeHook (hooks : option (WrapHooks U)) (path : string)
    (args : list value) : M U (list value) :=
  match hooks ≫= before with
  | None => ret args
  | Some hook =>
      let* _ := record (GlobalBefore path args) in
      let* result := run (hook path args) in
      ret (default args result)
  end.

Definition runAfterHook (hooks : option (WrapHooks U)) (path : string)
    (result : value) : M U value :=
  match hooks ≫= after with
  | None => ret result
  | Some hook =>
      let* _ := record (GlobalAfter path result) in
      let* modified := run (hook path result) in
      ret (orElse modified result)
  end.

(** [createRetryHelper]: [retry] calls the wrapped callable again, on the
    arguments of the call and outside the pipeline. *)
Definition createRetryHelper (call : Call U) : eff U value :=
  fn call (args call).

Definition handleError (hooks : option (WrapHooks U)) (call : Call U)
    (err : value) : M U value :=
  match hooks ≫= onError with
  | Some hook =>
      if isError err then
        let* _ := record (GlobalOnError (methodPath call) err) in
        run (hook (methodPath call) err (createRetryHelper call))
      else throw err
  | None => throw err
  end.

Definition checkMethodAccess (state : WrapperState U) (path : string)
    : option value :=
  let result :=
    Glob.checkAccess path (config state ≫= allowlist) (config state ≫= blocklist) in
  if Glob.isAllowed result then None
  else Some (VError (default EmptyString (Glob.reason result))).

(** [runMethodWithPlugins]; [call] carries the arguments the [before] hook
    left. *)
Definition runMethodWithPlugins (call : Call U)
    (pluginExecutions : list (Plugin.PluginExecution U)) : M U value :=
  let hooks := config (view call) ≫= hooks in
  let path := methodPath call in
  tryCatch
    (let* _ := record (Underlying path (args call)) in
     let* result := run (fn call (args call)) in
     let afterCtx :=
       {| Plugin.method := path; Plugin.args := args call;
          Plugin.result := Some result |} in
     let* _ := Plugin.runPluginsAfter pluginExecutions afterCtx in
     runAfterHook hooks path result)
    (fun err =>
       let* _ :=
         if isError err then
           Plugin.runPluginsOnError pluginExecutions
             {| Plugin.method := path; Plugin.args := args call;
                Plugin.result := None |} err
         else ret tt in
       handleError hooks call err).

(** The awaited steps of [executeCore] between the rate-limit wait and the
    completion: the [before] hook, the plugins' [before] hooks, the call
    with its [after] or [onError] side. *)
Definition runHooks (call : Call U) : M U value :=
  let path := methodPath call in
  let* finalArgs := runBeforeHook (config (view call) ≫= hooks) path (args call) in
  let pluginCtx :=
    {| Plugin.method := path; Plugin.args := finalArgs; Plugin.result := None |} in
  let* pluginExecutions := Plugin.runPluginsBefore (plugins (view call)) pluginCtx in
  runMethodWithPlugins
    {| fn := fn call; args := finalArgs; methodPath := path; view := view call |}
    pluginExecutions.






(** How an attempt of [waitForRateLimit] leaves the call. *)
Inductive Admission : Type :=
| Granted
| Waiting (delayMs : num).

(** One turn of the loop of [waitForRateLimit]: an acquisition attempt and,
    when it is denied, the [rateLimited] event; the timer is then awaited. *)
Definition waitForRateLimit (s : Shared U) (path : string) (now : Z)
    : Shared U * Admission :=
  match rateLimiter s with
  | None => (s, Granted)
  | Some limiter =>
      let '(limiter', result) := RateLimiter.tryAcquire limiter path now in
      let s' := withLimiter s (Some limiter') in
      if RateLimiter.canProceed result then (s', Granted)
      else (emitEvent s' (RateLimited path (RateLimiter.delayMs result)),
            Waiting (RateLimiter.delayMs result))
  end.

(** The synchronous start of [executeCore]: the [executing] event and the
    first acquisition attempt. *)
Definition executeCore (s : Shared U) (path : string) (now : Z)
    : Shared U * Admission :=
  let concurrent :=
    match queueState s with
    | Some q => Queue.getRunningCount q
    | None => 1%Z
    end in
  waitForRateLimit (emitEvent s (Executing path concurrent)) path now.

(** The [finally] of [executeCore]. *)
Definition emitCompletion (s : Shared U) (path : string) (startTime now : Z)
    : Shared U :=
  let latencyMs := (now - startTime)%Z in
  let s1 := emitEvent (updateStats s latencyMs) (Completed path latencyMs) in
  match rateLimiter s1 with
  | Some limiter =>
      withLimiter s1 (Some (RateLimiter.decrementConcurrent limiter path))
  | None => s1
  end.

(** A request that [processNext] starts runs [execute] at once, up to its
    first wait. *)
Definition begin (s : Shared U)
    (started : option (Queue.QueuedRequest (Call U))) (now : Z)
    : Shared U * option (Queue.QueuedRequest (Call U) * Admission) :=
  match started with
  | Some request =>
      let '(s', adm) := executeCore s (Queue.methodPath request) now in
      (s', Some (request, adm))
  | None => (s, None)
  end.

(** What [executeWithHooks] has done when it returns its promise. *)
Inductive Dispatch : Type :=
| Threw (err : value)
| QueueRejected (message : string)
| InQueue (requestId : Z)
          (started : option (Queue.QueuedRequest (Call U) * Admission))
| Direct (adm : Admission).

Definition executeWithHooks (s : Shared U) (call : Call U) (now : Z)
    : Shared U * Dispatch :=
  let state := view call in
  match checkMethodAccess state (methodPath call) with
  | Some err => (s, Threw err)
  | None =>
      let priority := default Queue.normal (perCallOptions state ≫= priority) in
      match queueState s with
      | Some q =>
          let s1 :=
            emitEvent s (Queued (methodPath call) (Queue.getQueueSize q + 1)) in
          match Queue.enqueue q (methodPath call) priority call with
          | Queue.Rejected message => (s1, QueueRejected message)
          | Queue.Accepted requestId q' started =>
              let '(s2, begun) := begin (withQueue s1 (Some q')) started now in
              (s2, InQueue requestId begun)
          end
      | None =>
          let '(s1, adm) := executeCore s (methodPath call) now in
          (s1, Direct adm)
      end
  end.

(** [wrapFunction]: the call of a method of a view. *)
Definition wrapFunction (state : WrapperState U) (s : Shared U)
    (path : string) (f : list value -> eff U value) (args : list value)
    (now : Z) : Shared U * Dispatch :=
  executeWithHooks s
    {| fn := f; args := args; methodPath := path; view := state |} now.

(** The [finally] of a started request, and the queue control. *)
Definition settleQueued (s : Shared U) (now : Z)
    : Shared U * option (Queue.QueuedRequest (Call U) * Admission) :=
  match queueState s with
  | Some q =>
      let '(q', started) := Queue.settle q in
      begin (withQueue s (Some q')) started now
  | None => (s, None)
  end.

Definition pause (s : Shared U) : Shared U :=
  match queueState s with
  | Some q => withQueue s (Some (Queue.pauseQueue q))
  | None => s
  end.

Definition resume (s : Shared U) (now : Z)
    : Shared U * option (Queue.QueuedRequest (Call U) * Admission) :=
  match queueState s with
  | Some q =>
      let '(q', started) := Queue.resumeQueue q in
      begin (withQueue s (Some q')) started now
  | None => (s, None)
  end.

Definition clear (s : Shared U) : Shared U :=
  match queueState s with
  | Some q => withQueue s (Some (Queue.clearQueue q).1)
  | None => s
  end.

End WithUser.

End Wrap.

(** ** The proxy: [createProxyHandler], [createDeepProxy] and [wrap] *)

Module Proxy.
Import Js JsNum Types State Wrap.

(** A value that is neither a function nor an object. *)
Inductive primitive : Type :=
| PUndefined
| PNull
| PBool (b : bool)
| PNum (n : Z)
| PStr (s : string).

(** What a property of the client holds, as the [get] trap tells values
    apart: a function, a non-null object with its properties (own ones
    first, then inherited ones, so that the first entry of a name is the one
    [Reflect.get] finds), or a primitive. *)
#[local] Unset Elimination Schemes.
Inductive Client (U : Type) : Type :=
| Fn (f : list value -> eff U value)
| Obj (props : list (string * Client U))
| Prim (p : primitive).
#[local] Set Elimination Schemes.
Global Arguments Fn {U} _.
Global Arguments Obj {U} _.
Global Arguments Prim {U} _.

Record ProxyContext (U : Type) : Type := {
  state : WrapperState U;
  rootClient : list (string * Client U);
  path : string
}.
Global Arguments state {U} _.
Global Arguments rootClient {U} _.
Global Arguments path {U} _.

(** What the wrapper answers itself. [Inherited] stands for what a member
    of [Object.prototype] gives when it is called on the state and the
    client: the handler table is an object literal, so a look-up in it also
    finds the names it inherits. *)
Inductive WrapperProperty (U : Type) : Type :=
| OnFn
| OffFn
| WithOptionsFn (state : WrapperState U) (rootClient : list (string * Client U))
| UseFn (state : WrapperState U) (rootClient : list (string * Client U))
| StatsObj
| QueueObj
| Inherited (name : string).
Global Arguments OnFn {U}.
Global Arguments OffFn {U}.
Global Arguments WithOptionsFn {U} _ _.
Global Arguments UseFn {U} _ _.
Global Arguments StatsObj {U}.
Global Arguments QueueObj {U}.
Global Arguments Inherited {U} _.

(** What the [get] trap returns: a property of the wrapper, the proxy of a
    nested object, a wrapped function with its [hookCtx], or the value as
    it is. *)
Inductive Got (U : Type) : Type :=
| WrapperProp (w : WrapperProperty U)
| Nested (target : list (string * Client U)) (ctx : ProxyContext U)
| Wrapped (fn : list value -> eff U value) (state : WrapperState U)
          (methodPath : string)
| Value (p : primitive).
Global Arguments WrapperProp {U} _.
Global Arguments Nested {U} _ _.
Global Arguments Wrapped {U} _ _ _.
Global Arguments Value {U} _.

(** The names [Object.prototype] defines. *)
Definition objectPrototypeKeys : list string :=
  [ "constructor"; "__defineGetter__"; "__defineSetter__"; "hasOwnProperty";
    "__lookupGetter__"; "__lookupSetter__"; "isPrototypeOf";
    "propertyIsEnumerable"; "toString"; "valueOf"; "__proto__";
    "toLocaleString" ].

(** The keys of [wrapperPropertyHandlers]. *)
Definition wrapperKeys : list string :=
  [ "on"; "off"; "withOptions"; "use"; "stats"; "queue" ].

Section WithUser.
Context {U : Type}.

(** [Reflect.get(target, prop)]: [undefined] for a name the object does
    not have. *)
Fixpoint lookupProp (props : list (string * Client U)) (prop : string)
    : option (Client U) :=
  match props with
  | [] => None
  | (key, value) :: rest =>
      if String.eqb key prop then Some value else lookupProp rest prop
  end.

Definition ReflectGet (target : list (string * Client U)) (prop : string)
    : Client U :=
  default (Prim PUndefined) (lookupProp target prop).

(** [handleWrapperProperty], on a property key that is a string:
    [wrapperPropertyHandlers[prop]?.(state, rootClient)]. None of the
    handlers returns [undefined]. *)
Definition handleWrapperProperty (prop : string) (st : WrapperState U)
    (root : list (string * Client U)) : option (WrapperProperty U) :=
  if String.eqb prop "on" then Some OnFn
  else if String.eqb prop "off" then Some OffFn
  else if String.eqb prop "withOptions" then Some (WithOptionsFn st root)
  else if String.eqb prop "use" then Some (UseFn st root)
  else if String.eqb prop "stats" then Some StatsObj
  else if String.eqb prop "queue" then Some QueueObj
  else if bool_decide (prop ∈ objectPrototypeKeys) then Some (Inherited prop)
  else None.

(** The [get] trap of [createProxyHandler]. *)
Definition get (ctx : ProxyContext U) (target : list (string * Client U))
    (prop : string) : Got U :=
  match handleWrapperProperty prop (state ctx) (rootClient ctx) with
  | Some wrapperProp => WrapperProp wrapperProp
  | None =>
      let value := ReflectGet target prop in
      let propName := prop in
      let newPath :=
        if String.eqb (path ctx) EmptyString then propName
        else path ctx +:+ "." +:+ propName in
      match value with
      | Obj props =>
          Nested props
            {| state := state ctx; rootClient := rootClient ctx; path := newPath |}
      | Fn f => Wrapped f (state ctx) newPath
      | Prim p => Value p
      end
  end.

(** The functions [createWithOptions] and [createUse] return: both make a
    proxy of the root client, with an empty path. *)
Definition withOptions (st : WrapperState U) (root : list (string * Client U))
    (opts : PerCallOptions) : list (string * Client U) * ProxyContext U :=
  (root, {| state := createWithOptions st opts; rootClient := root; path := EmptyString |}).

Definition use (st : WrapperState U) (root : list (string * Client U))
    (p : Plugin.Plugin U) : list (string * Client U) * ProxyContext U :=
  (root, {| state := createUse st p; rootClient := root; path := EmptyString |}).

Definition validateConfig (cfg : option (WrapConfig U)) : option value :=
  match cfg with
  | None => None
  | Some c =>
      match allowlist c, blocklist c with
      | Some _, Some _ =>
          Some (VError
                  "Cannot specify both allowlist and blocklist. Use one or the other.")
      | _, _ => None
      end
  end.

(** [wrap]: the error it throws, or the shared state it creates and the
    proxy of the client. *)
Definition wrap (client : list (string * Client U)) (cfg : option (WrapConfig U))
    : value + (Shared U * (list (string * Client U) * ProxyContext U)) :=
  match validateConfig cfg with
  | Some err => inl err
  | None =>
      inr (createInitialState cfg,
           (client, {| state := initialView cfg; rootClient := client;
                       path := EmptyString |}))
  end.

(** A chain of property accesses that starts at a proxy:
    [proxy.n1.n2. ... .nk]. Only the proxies of nested objects can be
    accessed further. *)
Fixpoint access (ctx : ProxyContext U) (target : list (string * Client U))
    (names : list string) : option (Got U) :=
  match names with
  | [] => None
  | [name] => Some (get ctx target name)
  | name :: rest =>
      match get ctx target name with
      | Nested target' ctx' => access ctx' target' rest
      | _ => None
      end
  end.

(** The same chain on the client itself. *)
Fixpoint resolve (target : list (string * Client U)) (names : list string)
    : option (Client U) :=
  match names with
  | [] => None
  | [name] => Some (ReflectGet target name)
  | name :: rest =>
      match ReflectGet target name with
      | Obj props => resolve props rest
      | _ => None
      end
  end.

(** A name the wrapper forwards to the client. *)
Definition forwarded (name : string) : Prop :=
  name <> EmptyString /\ (name ∉ wrapperKeys) /\ (name ∉ objectPrototypeKeys).

End WithUser.

End Proxy.

(** ** One call on a wrapper that nothing else is using

    The pieces above are the synchronous sections of the source. What runs
    between them is the event loop's: timers and the settling of promises.
    This module puts the pieces of one call in the order the event loop
    runs them when no other call is in flight, with the time each wait
    takes. *)

Module Solo.
Import Js JsNum Trace Types State Wrap.

Inductive Outcome : Type :=
| Pending
| Settled (time : Z) (result : value + value).

(** The milliseconds [setTimeout] waits for a delay: a whole, non-negative
    number. *)
Definition timerDelay (d : num) : Z :=
  match d with
  | Fin q => Z.max 0 (Qfloor q)
  | _ => 0%Z
  end.


Section WithUser.
Context {U : Type}.

(** The loop of [waitForRateLimit]: wait for the delay, try again. *)
Fixpoint waitLoop (fuel : nat) (s : Shared U) (path : string) (now : Z)
    (adm : Admission) : option (Shared U * Z) :=
  match adm with
  | Granted => Some (s, now)
  | Waiting d =>
      match fuel with
      | O => None
      | S fuel' =>
          let now' := (now + timerDelay d)%Z in
          let '(s', adm') := waitForRateLimit s path now' in
          waitLoop fuel' s' path now' adm'
      end
  end.

(** [executeCore] from its first attempt to its [finally]; [latency] is the
    time the hooks and the wrapped callable take to settle. *)
Definition runCore (fuel : nat) (s : Shared U) (w : World U) (call : Call U)
    (latency start : Z) (adm : Admission)
    : option (Shared U * World U * Z * (value + value)) :=
  match waitLoop fuel s (methodPath call) start adm with
  | None => None
  | Some (s1, granted) =>
      let '(w', result) := runHooks call w in
      let finish := (granted + latency)%Z in
      Some (emitCompletion s1 (methodPath call) start finish, w', finish, result)
  end.

(** [executeWithTimeout]: the execution raced against a timer that rejects;
    the execution is not stopped when the timer wins. *)
Definition executeWithTimeout (timeoutMs : option num) (start : Z)
    (execution : Z * (value + value)) : Z * (value + value) :=
  if negb (truthyOpt timeoutMs) then execution
  else
    let deadline := (start + timerDelay (default NaN timeoutMs))%Z in
    if (execution.1 <=? deadline)%Z then execution
    else (deadline, inr (VError "Request timed out")).

Definition soloCall (fuel : nat) (s : Shared U) (w : World U) (call : Call U)
    (latency now : Z) : option (Shared U * World U * Outcome) :=
  let '(s1, dispatch) := executeWithHooks s call now in
  match dispatch with
  | Threw err => Some (s1, w, Settled now (inr err))
  | QueueRejected message => Some (s1, w, Settled now (inr (VError message)))
  | Direct adm =>
      match runCore fuel s1 w call latency now adm with
      | None => None
      | Some (s2, w', finish, result) => Some (s2, w', Settled finish result)
      end
  | InQueue requestId (Some (request, adm)) =>
      if (Queue.id request =? requestId)%Z then
        match runCore fuel s1 w (Queue.execute request) latency now adm with
        | None => None
        | Some (s2, w', finish, result) =>
            let timeoutMs := queueState s2 ≫= (fun q => Queue.timeout (Queue.config q)) in
            let '(settled, result') :=
              executeWithTimeout timeoutMs now (finish, result) in
            Some ((settleQueued s2 settled).1, w', Settled settled result')
        end
      else Some (s1, w, Pending)
  | InQueue requestId None => Some (s1, w, Pending)
  end.

End WithUser.

End Solo.

(** ** The operations of a wrapper *)

Module Machine.
Import Js JsNum Types State Wrap.

(** What can happen to the shared state of a wrapper: a method of one of its
    views is called, a waiting call tries again, a call completes, a started
    request settles, the queue is paused, resumed or cleared, a listener is
    added or removed. *)
Inductive Op (U : Type) : Type :=
| CallOp (call : Call U) (now : Z)
| AttemptOp (path : string) (now : Z)
| CompletionOp (path : string) (startTime now : Z)
| SettleOp (now : Z)
| PauseOp
| ResumeOp (now : Z)
| ClearOp
| OnOp (event : WrapkitEventName) (handler : nat)
| OffOp (event : WrapkitEventName) (handler : nat).
Global Arguments CallOp {U} _ _.
Global Arguments AttemptOp {U} _ _.
Global Arguments CompletionOp {U} _ _ _.
Global Arguments SettleOp {U} _.
Global Arguments PauseOp {U}.
Global Arguments ResumeOp {U} _.
Global Arguments ClearOp {U}.
Global Arguments OnOp {U} _ _.
Global Arguments OffOp {U} _ _.

Definition step {U : Type} (s : Shared U) (op : Op U) : Shared U :=
  match op with
  | CallOp call now => (executeWithHooks s call now).1
  | AttemptOp path now => (waitForRateLimit s path now).1
  | CompletionOp path startTime now => emitCompletion s path startTime now
  | SettleOp now => (settleQueued s now).1
  | PauseOp => pause s
  | ResumeOp now => (resume s now).1
  | ClearOp => clear s
  | OnOp event handler => createOn s event handler
  | OffOp event handler => createOff s event handler
  end.

Definition runOps {U : Type} (s : Shared U) (ops : list (Op U)) : Shared U :=
  foldl step s ops.

(** The two statistics nothing computes are still zero, and no [error] event
    was emitted. *)
Definition inert {U : Type} (s : Shared U) : Prop :=
  errorRate (stats s) = ofZ 0 /\
  requestsPerMinute (stats s) = ofZ 0 /\
  Forall (fun e => eventName e <> error) (emitted s).




Definition total (durations : list Z) : Z := foldr Z.add 0%Z durations.


(** What an operation does to the queue of a wrapper that has one. *)
Definition queueStep {U : Type} (op : Op U) (q : Queue.QueueState (Call U))
    : Queue.QueueState (Call U) :=
  match op with
  | CallOp call now =>
      match checkMethodAccess (view call) (methodPath call) with
      | Some _ => q
      | None =>
          Queue.afterEnqueue q
            (Queue.enqueue q (methodPath call)
               (default Queue.normal (perCallOptions (view call) ≫= priority))
               call)
      end
  | SettleOp _ => (Queue.settle q).1
  | PauseOp => Queue.pauseQueue q
  | ResumeOp _ => (Queue.resumeQueue q).1
  | ClearOp => (Queue.clearQueue q).1
  | AttemptOp _ _ | CompletionOp _ _ _ | OnOp _ _ | OffOp _ _ => q
  end.

End Machine.

(** ** Sample clients, plugins and hooks

    The user state is the [order] array of the tests: every hook pushes its
    number. *)

Module Samples.
Import Js JsNum Trace Types State Wrap.

Definition push {A : Type} (n : nat) (a : A) : eff (list nat) A :=
  fun order => (order ++ [n], inl a).

Definition numbered (label : string) (n : nat) : Plugin.Plugin (list nat) :=
  {| Plugin.name := label;
     Plugin.before := Some (fun _ => push n (VNum (Z.of_nat n)));
     Plugin.after := Some (fun _ _ => push n tt);
     Plugin.onError := Some (fun _ _ _ => push n tt) |}.

Definition raise {A : Type} (n : nat) (message : string) : eff (list nat) A :=
  fun order => (order ++ [n], inr (VError message)).



(** The second plugin with a [before] that throws. *)
Definition beforeThrows : Plugin.Plugin (list nat) :=
  {| Plugin.name := "p2";
     Plugin.before := Some (fun _ => raise 2 "before failed");
     Plugin.after := Some (fun _ _ => push 2 tt);
     Plugin.onError := Some (fun _ _ _ => push 2 tt) |}.

Definition succeeding : list value -> eff (list nat) value :=
  fun _ order => (order, inl (VStr "result")).



Definition fallbackHooks : WrapHooks (list nat) :=
  {| before := None; after := None;
     onError := Some (fun _ _ _ => push 0 (VStr "fallback-value")) |}.

(** Global hooks whose [before], or [after], throws, beside an [onError]
    with a fallback. *)
Definition beforeThrowsHooks : WrapHooks (list nat) :=
  {| before := Some (fun _ _ => raise 0 "before failed"); after := None;
     onError := Some (fun _ _ _ => push 0 (VStr "fallback-value")) |}.


Definition configOf (h : option (WrapHooks (list nat)))
    (q : option Queue.QueueConfig) : option (WrapConfig (list nat)) :=
  Some {| hooks := h; rateLimit := None; queue := q;
          allowlist := None; blocklist := None |}.

Definition threePlugins (cfg : option (WrapConfig (list nat)))
    : WrapperState (list nat) :=
  createUse
    (createUse (createUse (initialView cfg) (numbered "p1" 1)) (numbered "p2" 2))
    (numbered "p3" 3).

Definition around (middle : Plugin.Plugin (list nat))
    (cfg : option (WrapConfig (list nat))) : WrapperState (list nat) :=
  createUse
    (createUse (createUse (initialView cfg) (numbered "p1" 1)) middle)
    (numbered "p3" 3).

Definition callOf (state : WrapperState (list nat))
    (f : list value -> eff (list nat) value) : Call (list nat) :=
  {| fn := f; args := []; methodPath := "chat.completions.create";
     view := state |}.

Definition emptyWorld : World (list nat) := {| user := []; log := [] |}.

Definition queuedIds {U : Type} (s : Shared U) : list Z :=
  match queueState s with
  | Some q => map Queue.id (Queue.queue q)
  | None => []
  end.

Definition runningCount {U : Type} (s : Shared U) : Z :=
  match queueState s with
  | Some q => Queue.running q
  | None => 0%Z
  end.

Definition oneSlotConfig : option (WrapConfig (list nat)) :=
  configOf None (Some Queue.oneSlot).

Definition blockFiles : option (WrapConfig (list nat)) :=
  Some {| hooks := None; rateLimit := None; queue := None;
          allowlist := None; blocklist := Some ["files.*"] |}.



Definition skipQueueView (cfg : option (WrapConfig (list nat)))
    : WrapperState (list nat) :=
  createWithOptions (initialView cfg)
    {| timeout := None; priority := None; skipQueue := Some true |}.

Definition timeoutView (cfg : option (WrapConfig (list nat))) (ms : Z)
    : WrapperState (list nat) :=
  createWithOptions (initialView cfg)
    {| timeout := Some (ofZ ms); priority := None; skipQueue := None |}.


Definition noSlotConfig : option (WrapConfig (list nat)) :=
  configOf None
    (Some {| Queue.concurrency := Some (ofZ 0); Queue.timeout := None;
             Queue.maxSize := None |}).

Definition priorityView (cfg : option (WrapConfig (list nat)))
    (p : Queue.Priority) : WrapperState (list nat) :=
  createWithOptions (initialView cfg)
    {| timeout := None; priority := Some p; skipQueue := None |}.

(** Three calls on a wrapper with a queue: all of them at once, and behind
    a pause with priorities low, high and normal. *)
Definition threeCalls (cfg : option (WrapConfig (list nat)))
    : list (Machine.Op (list nat)) :=
  [ Machine.CallOp (callOf (initialView cfg) succeeding) 0;
    Machine.CallOp (callOf (initialView cfg) succeeding) 0;
    Machine.CallOp (callOf (initialView cfg) succeeding) 0 ].

Definition pausedCalls (cfg : option (WrapConfig (list nat)))
    : list (Machine.Op (list nat)) :=
  [ Machine.PauseOp;
    Machine.CallOp (callOf (priorityView cfg Queue.low) succeeding) 0;
    Machine.CallOp (callOf (priorityView cfg Queue.high) succeeding) 0;
    Machine.CallOp (callOf (priorityView cfg Queue.normal) succeeding) 0 ].

(** A wrapper with a rate limiter and nothing else. *)
Definition limiterConfig (lc : RateLimiter.Config)
    : option (WrapConfig (list nat)) :=
  Some {| hooks := None; rateLimit := Some lc; queue := None;
          allowlist := None; blocklist := None |}.

(** A client with a nested method, and with a method of its own under the
    name [on]. *)
Definition openai : list (string * Proxy.Client (list nat)) :=
  [ ("chat",
     Proxy.Obj
       [ ("completions", Proxy.Obj [ ("create", Proxy.Fn succeeding) ]);
         ("on", Proxy.Fn succeeding) ]);
    ("apiKey", Proxy.Prim (Proxy.PStr "sk-test")) ].

Definition rootContext (cfg : option (WrapConfig (list nat)))
    : Proxy.ProxyContext (list nat) :=
  {| Proxy.state := initialView cfg; Proxy.rootClient := openai;
     Proxy.path := EmptyString |}.

Definition highPriority : PerCallOptions :=
  {| timeout := None; priority := Some Queue.high; skipQueue := None |}.

End Samples.

(* ================================================================== *)
(** * Properties *)

(** ** Glob matching *)

Section GlobFacts.
Import Str Glob.

Lemma join_cons {A : Type} (sep : A) (p : list A) (ps : list (list A)) :
  join [sep] (p :: ps) = p ++ tailOf sep ps.
Proof.
  revert p. induction ps as [|q qs IH]; intros p.
  - simpl. by rewrite app_nil_r.
  - change (join [sep] (p :: q :: qs)) with (p ++ [sep] ++ join [sep] (q :: qs)).
    rewrite IH. reflexivity.
Qed.

Lemma plus_true cls k s :
  plus cls k s = true <->
  exists pre post, s = pre ++ post /\ pre <> [] /\
    forallb (inClass cls) pre = true /\ k post = true.
Proof.
  induction s as [|c s IH]; simpl.
  - split; [discriminate|].
    intros (pre & post & E & Hne & _). destruct pre; [done|discriminate].
  - rewrite andb_true_iff, orb_true_iff, IH. split.
    + intros [Hc [Hk | (pre & post & -> & Hne & Hall & Hk)]].
      * exists [c], s. simpl. rewrite Hc. done.
      * exists (c :: pre), post. simpl. rewrite Hc, Hall. done.
    + intros (pre & post & E & Hne & Hall & Hk).
      destruct pre as [|c' pre]; [done|]. simpl in E. injection E as -> ->.
      simpl in Hall. apply andb_true_iff in Hall as [Hc Hall].
      split; [done|]. destruct pre as [|c'' pre].
      * left. done.
      * right. exists (c'' :: pre), post. done.
Qed.

Lemma test_lits p r s :
  test (literally p ++ r) s = true <->
  exists post, s = p ++ post /\ test r post = true.
Proof.
  revert s. induction p as [|c p IH]; intros s; simpl.
  - split; [eauto|]. by intros (post & -> & H).
  - destruct s as [|c' s].
    + split; [discriminate|]. by intros (post & E & _).
    + rewrite andb_true_iff, IH, Ascii.eqb_eq. split.
      * intros [-> (post & -> & H)]. eauto.
      * intros (post & E & H). injection E as -> ->. eauto.
Qed.




Lemma tailOf_app {A} (sep : A) l1 l2 :
  tailOf sep (l1 ++ l2) = tailOf sep l1 ++ tailOf sep l2.
Proof. unfold tailOf. by rewrite flat_map_app. Qed.


Lemma forallb_notDot (l : chars) :
  forallb (inClass NotDot) l = true <-> Forall (fun c => c <> dot) l.
Proof.
  rewrite forallb_forall, Forall_forall. unfold inClass.
  split; intros H c Hc.
  - apply list_elem_of_In, H in Hc. apply negb_true_iff in Hc.
    intros ->. by rewrite Ascii.eqb_refl in Hc.
  - apply negb_true_iff, Ascii.eqb_neq, H, list_elem_of_In, Hc.
Qed.

Lemma forallb_anyChar (l : chars) :
  forallb (inClass AnyChar) l = true <-> noLineTerminator l.
Proof.
  unfold noLineTerminator. rewrite forallb_forall, Forall_forall. unfold inClass.
  split; intros H c Hc.
  - apply list_elem_of_In, H in Hc. by apply negb_true_iff in Hc.
  - apply negb_true_iff, H, list_elem_of_In, Hc.
Qed.







Lemma split_dot_cons (s : chars) : exists p ps, split_dot s = p :: ps.
Proof.
  induction s as [|c s (p & ps & IH)]; simpl; [eauto|].
  destruct (Ascii.eqb c dot); [eauto|]. rewrite IH. eauto.
Qed.


Lemma isSyntaxChar_false c :
  isSyntaxChar c = false ->
  Ascii.eqb c backslash = false /\ Ascii.eqb c "." = false /\
  Ascii.eqb c "[" = false.
Proof.
  unfold isSyntaxChar. cbn [existsb]. intros H.
  repeat (apply orb_false_iff in H as [? H]). done.
Qed.

Lemma readItems_escape part rest :
  readItems (escapeRegex part ++ rest) = app (literally part) <$> readItems rest.
Proof.
  induction part as [|c part IH]; simpl.
  - by destruct (readItems rest).
  - destruct (isSyntaxChar c) eqn:Hc; simpl.
    + rewrite Hc, IH. by destruct (readItems rest).
    + destruct (isSyntaxChar_false c Hc) as (-> & -> & ->).
      rewrite Hc, IH. by destruct (readItems rest).
Qed.

Lemma readItems_part part rest :
  readItems (regexPartSource part ++ rest) =
  app (regexPart part) <$> readItems rest.
Proof.
  unfold regexPart, regexPartSource. repeat case_decide.
  - change (readItems (?x ++ rest)) with (cons (Plus AnyChar) <$> readItems rest).
    by destruct (readItems rest).
  - change (readItems (?x ++ rest)) with (cons (Plus NotDot) <$> readItems rest).
    by destruct (readItems rest).
  - apply readItems_escape.
Qed.

Lemma readItems_joined (parts : list chars) :
  parts <> [] ->
  readItems (join [backslash; dot] (map regexPartSource parts)) =
  Some (join [Lit dot] (map regexPart parts)).
Proof.
  induction parts as [|p [|q parts] IH]; intros Hne; [done| |].
  - simpl. rewrite <- (app_nil_r (regexPartSource p)).
    rewrite readItems_part. simpl. by rewrite app_nil_r.
  - change (join ?sep (map ?f (p :: q :: parts)))
      with (f p ++ sep ++ join sep (map f (q :: parts))).
    rewrite readItems_part.
    change (readItems ([backslash; dot] ++ ?x))
      with (cons (Lit dot) <$> readItems x).
    rewrite IH by done. reflexivity.
Qed.

(** The constructor reads the source of a pattern as the sequence of items
    of its parts, with an escaped dot between two parts. *)
Lemma RegExp_regexSource (pattern : string) :
  patternToRegex pattern = Some (compiled pattern).
Proof.
  unfold patternToRegex, regexSource, compiled, RegExp.
  destruct (split_dot_cons (list_ascii_of_string pattern)) as (p & ps & E).
  rewrite E. cbn [app]. rewrite Ascii.eqb_refl.
  rewrite rev_app_distr. cbn [rev app]. rewrite Ascii.eqb_refl, rev_involutive.
  by apply readItems_joined.
Qed.





End GlobFacts.

(** ** The rate limiter *)

Section RateLimiterFacts.
Import JsNum RateLimiter.

Example two_per_second_third_waits :
  let s1 := (tryAcquire (createRateLimiter twoPerSecond) "fast" 0).1 in
  let s2 := (tryAcquire s1 "fast" 0).1 in
  canProceed (tryAcquire (createRateLimiter twoPerSecond) "fast" 0).2 = true /\
  canProceed (tryAcquire s1 "fast" 0).2 = true /\
  (tryAcquire s2 "fast" 0).2 = {| canProceed := false; delayMs := ofZ 500 |}.
Proof. vm_compute. done. Qed.

Lemma tryAcquire_capped state methodPath now cap :
  capOf state methodPath = Some cap ->
  ge (ofZ (currentCount state methodPath)) cap = true ->
  tryAcquire state methodPath now =
    (state, {| canProceed := false; delayMs := ofZ 50 |}).
Proof.
  unfold capOf, tryAcquire. intros Hcap Hge.
  destruct (getConfigForMethod (config state) methodPath ≫= concurrency)
    as [c|]; [|done].
  simpl. destruct (truthy c) eqn:Ht; [|done].
  injection Hcap as ->. simpl. by rewrite Hge.
Qed.

Lemma tryAcquire_uncapped state methodPath now :
  (forall cap, capOf state methodPath = Some cap ->
     ge (ofZ (currentCount state methodPath)) cap = false) ->
  tryAcquire state methodPath now =
    let '(state1, bucket0, held) := getBucket state methodPath now in
    let bucket := refillBucket bucket0 now in
    if ge (tokens bucket) (ofZ 1) then
      (incrementConcurrent
         (writeBucket held methodPath
            {| tokens := sub (tokens bucket) (ofZ 1);
               lastRefill := lastRefill bucket;
               tokensPerMs := tokensPerMs bucket;
               maxTokens := maxTokens bucket |} state1) methodPath,
       {| canProceed := true; delayMs := ofZ 0 |})
    else
      (writeBucket held methodPath bucket state1,
       {| canProceed := false;
          delayMs := ceil (div (sub (ofZ 1) (tokens bucket)) (tokensPerMs bucket)) |}).
Proof.
  unfold capOf, tryAcquire. intros Hcap.
  destruct (getConfigForMethod (config state) methodPath ≫= concurrency)
    as [c|]; [|done].
  simpl in *. destruct (truthy c) eqn:Ht; [|done].
  simpl. by rewrite (Hcap c eq_refl).
Qed.

Lemma getBucket_counts state methodPath now :
  concurrentCount (getBucket state methodPath now).1.1 = concurrentCount state.
Proof.
  unfold getBucket.
  destruct (getConfigForMethod (config state) methodPath); [|done].
  destruct (buckets state !! methodPath); done.
Qed.

Lemma getBucket_held state methodPath now :
  (getBucket state methodPath now).2 =
    bool_decide (is_Some (getConfigForMethod (config state) methodPath)).
Proof.
  unfold getBucket.
  destruct (getConfigForMethod (config state) methodPath) as [c|].
  - rewrite bool_decide_eq_true_2 by eauto.
    destruct (buckets state !! methodPath); done.
  - rewrite bool_decide_eq_false_2; [done|]. by intros [? ?].
Qed.

Lemma getBucket_buckets_other state methodPath now other :
  other <> methodPath ->
  buckets (getBucket state methodPath now).1.1 !! other = buckets state !! other.
Proof.
  intros Hne. unfold getBucket.
  destruct (getConfigForMethod (config state) methodPath); [|done].
  destruct (buckets state !! methodPath); [done|].
  simpl. by rewrite lookup_insert_ne.
Qed.

Lemma ge_Fin x y : ge (Fin x) (Fin y) = true <-> (y <= x)%Q.
Proof. unfold ge. apply Qle_bool_iff. Qed.

Lemma min_Fin m x :
  exists t, min (Fin m) (Fin x) = Fin t /\ (t <= m)%Q /\ (t <= x)%Q /\
    ((0 <= m)%Q -> (0 <= x)%Q -> (0 <= t)%Q).
Proof.
  unfold min. destruct (ge (Fin m) (Fin x)) eqn:H.
  - apply ge_Fin in H. exists x. split_and!; [done|done|lra|done].
  - exists m. split_and!; [done|lra| |done].
    destruct (Qlt_le_dec x m) as [Hlt|Hle]; [|done].
    apply Qlt_le_weak, ge_Fin in Hlt. congruence.
Qed.

Lemma createBucket_finite c now :
  finiteRate c -> finiteBucket (createBucket c now) now.
Proof.
  intros (q & Hq & E). unfold createBucket. rewrite E.
  set (cq := inject_Z (Qceiling q)).
  assert (Hmax : exists m, max (ofZ 1) (ceil (Fin q)) = Fin m /\ (0 <= m)%Q).
  { change (ceil (Fin q)) with (Fin cq). unfold max, ofZ.
    destruct (ge (Fin (inject_Z 1)) (Fin cq)) eqn:H.
    - exists (inject_Z 1). done.
    - exists cq. split; [done|].
      destruct (Qlt_le_dec cq (inject_Z 1)) as [Hlt|Hle].
      + apply Qlt_le_weak, ge_Fin in Hlt. congruence.
      + assert (0 <= inject_Z 1)%Q by done. lra. }
  destruct Hmax as (m & Em & Hm). rewrite Em.
  exists m, m, (q / inject_Z 1000)%Q. simpl. split_and!; try done; try lra.
  unfold Qdiv. apply Qmult_le_0_compat; [lra|done].
Qed.

Lemma refillBucket_finite bucket start now :
  finiteBucket bucket start -> (start <= now)%Z ->
  finiteBucket (refillBucket bucket now) now.
Proof.
  intros (t & m & r & Et & Em & Er & Ht & Htm & Hr & Hl) Hnow.
  unfold refillBucket. rewrite Et, Em, Er.
  change (mul (ofZ (now - lastRefill bucket)) (Fin r))
    with (Fin (inject_Z (now - lastRefill bucket) * r)).
  change (add (Fin t) (Fin ?x)) with (Fin (t + x)).
  set (x := (t + inject_Z (now - lastRefill bucket) * r)%Q).
  assert (Hx : (0 <= x)%Q).
  { unfold x.
    assert (0 <= inject_Z (now - lastRefill bucket) * r)%Q; [|lra].
    apply Qmult_le_0_compat; [|done].
    change 0%Q with (inject_Z 0). rewrite <- Zle_Qle. lia. }
  destruct (min_Fin m x) as (t' & -> & H1 & H2 & H3).
  exists t', m, r. simpl. split_and!; try done; try lia. apply H3; [lra|done].
Qed.

Lemma finiteBucket_later bucket start now :
  finiteBucket bucket start -> (start <= now)%Z -> finiteBucket bucket now.
Proof.
  intros (t & m & r & ? & ? & ? & ? & ? & ? & ?) ?.
  exists t, m, r. split_and!; try done. lia.
Qed.

Lemma finiteBucket_inRange bucket now :
  finiteBucket bucket now -> inRange bucket = true.
Proof.
  intros (t & m & r & Et & Em & _ & Ht & Htm & _).
  unfold inRange. rewrite Et, Em. apply andb_true_iff. split.
  - by apply ge_Fin.
  - by apply ge_Fin.
Qed.

Lemma consume_finite bucket now :
  finiteBucket bucket now -> ge (tokens bucket) (ofZ 1) = true ->
  finiteBucket
    {| tokens := sub (tokens bucket) (ofZ 1);
       lastRefill := lastRefill bucket;
       tokensPerMs := tokensPerMs bucket;
       maxTokens := maxTokens bucket |} now.
Proof.
  intros (t & m & r & Et & Em & Er & Ht & Htm & Hr & Hl) Hge.
  rewrite Et in *. apply ge_Fin in Hge.
  exists (t + - inject_Z 1)%Q, m, r. simpl.
  assert (inject_Z 1 == 1)%Q by done.
  split_and!; try done; lra.
Qed.

Lemma tryAcquire_config state methodPath now :
  config (tryAcquire state methodPath now).1 = config state.
Proof.
  unfold tryAcquire.
  destruct (_ && _); [done|].
  unfold getBucket.
  destruct (getConfigForMethod (config state) methodPath); simpl;
    [destruct (buckets state !! methodPath); simpl|];
    destruct (ge _ _); done.
Qed.

Lemma finiteBuckets_later state start now :
  finiteBuckets state start -> (start <= now)%Z -> finiteBuckets state now.
Proof. intros H ? p b Hb. eapply finiteBucket_later; eauto. Qed.

Lemma getBucket_finite state methodPath start now :
  allFinite (config state) -> (start <= now)%Z ->
  finiteBuckets state start ->
  finiteBuckets (getBucket state methodPath now).1.1 now /\
  ((getBucket state methodPath now).2 = true ->
   finiteBucket (getBucket state methodPath now).1.2 now).
Proof.
  intros Hcfg Hnow Hinv.
  pose proof (finiteBuckets_later _ _ _ Hinv Hnow) as Hinv'.
  unfold getBucket.
  destruct (getConfigForMethod (config state) methodPath) as [c|] eqn:Ec.
  - destruct (buckets state !! methodPath) as [b|] eqn:Eb; simpl.
    + split; [done|]. eauto.
    + assert (finiteBucket (createBucket c now) now)
        by (apply createBucket_finite; eauto).
      split; [|done]. intros p b.
      destruct (decide (p = methodPath)) as [->|Hne]; simpl.
      * rewrite lookup_insert_eq. by intros [= <-].
      * rewrite lookup_insert_ne by done. apply Hinv'.
  - simpl. done.
Qed.

Lemma writeBucket_finite held methodPath bucket state now :
  finiteBuckets state now -> (held = true -> finiteBucket bucket now) ->
  finiteBuckets (writeBucket held methodPath bucket state) now.
Proof.
  intros Hinv Hb. destruct held; [|done]. intros p b. simpl.
  destruct (decide (p = methodPath)) as [->|Hne].
  - rewrite lookup_insert_eq. intros [= <-]. by apply Hb.
  - rewrite lookup_insert_ne by done. apply Hinv.
Qed.

Lemma tryAcquire_finite state methodPath start now :
  allFinite (config state) -> (start <= now)%Z ->
  finiteBuckets state start ->
  finiteBuckets (tryAcquire state methodPath now).1 now.
Proof.
  intros Hcfg Hnow Hinv. unfold tryAcquire.
  destruct (_ && _); [by eapply finiteBuckets_later|].
  destruct (getBucket_finite state methodPath start now Hcfg Hnow Hinv)
    as [Hst1 Hb0].
  destruct (getBucket state methodPath now) as [[st1 b0] held].
  simpl in Hst1, Hb0.
  destruct (ge (tokens (refillBucket b0 now)) (ofZ 1)) eqn:Hge.
  - apply (writeBucket_finite held methodPath _ st1 now Hst1).
    intros Hheld. apply consume_finite; [|done].
    apply (refillBucket_finite b0 now now); [by apply Hb0|lia].
  - apply writeBucket_finite; [done|]. intros Hheld.
    apply (refillBucket_finite b0 now now); [by apply Hb0|lia].
Qed.

Lemma attempts_finite calls : forall state start,
  allFinite (config state) -> monotoneFrom start calls ->
  finiteBuckets state start ->
  exists final, finiteBuckets (attempts state calls) final.
Proof.
  induction calls as [|[p now] calls IH]; intros state start Hcfg Hmono Hinv.
  - exists start. done.
  - simpl in *. destruct Hmono as [Hle Hmono].
    apply (IH _ now); [by rewrite tryAcquire_config|done|].
    by apply (tryAcquire_finite _ _ start).
Qed.

(** With a finite positive rate everywhere and a clock that never goes
    back, every bucket stays between zero and its capacity. *)
Lemma tokens_in_range_finite cfg start calls methodPath bucket :
  allFinite cfg -> monotoneFrom start calls ->
  buckets (attempts (createRateLimiter cfg) calls) !! methodPath = Some bucket ->
  inRange bucket = true.
Proof.
  intros Hcfg Hmono Hb.
  destruct (attempts_finite calls (createRateLimiter cfg) start Hcfg Hmono)
    as (final & Hfinal).
  { intros p b. simpl. by rewrite lookup_empty. }
  eapply finiteBucket_inRange, Hfinal, Hb.
Qed.

Lemma refilled_refillBucket bucket now :
  tokens (refillBucket bucket now) = refilled bucket now.
Proof. reflexivity. Qed.

Lemma currentCount_increment state methodPath other :
  currentCount (incrementConcurrent state methodPath) other =
    if decide (other = methodPath) then (currentCount state methodPath + 1)%Z
    else currentCount state other.
Proof.
  unfold currentCount, incrementConcurrent. simpl. case_decide as H.
  - subst. by rewrite lookup_insert_eq.
  - by rewrite lookup_insert_ne.
Qed.

Lemma writeBucket_counts held methodPath bucket state :
  concurrentCount (writeBucket held methodPath bucket state) =
    concurrentCount state.
Proof. by destruct held. Qed.

Lemma writeBucket_lookup held methodPath bucket state :
  held = true ->
  buckets (writeBucket held methodPath bucket state) !! methodPath = Some bucket.
Proof. intros ->. simpl. apply lookup_insert_eq. Qed.

(** C7, as worded, at a cap of zero: the cap is set and the in-flight count
    of the path (0) is at or above it, and yet the attempt goes through,
    because the cap is consulted only when it is truthy. *)
Lemma cap_zero_is_not_a_cap :
  getConfigForMethod capZero "fast" ≫= concurrency = Some (ofZ 0) /\
  ge (ofZ (currentCount (createRateLimiter capZero) "fast")) (ofZ 0) = true /\
  (tryAcquire (createRateLimiter capZero) "fast" 0).2 =
    {| canProceed := true; delayMs := ofZ 0 |}.
Proof. vm_compute. done. Qed.

(** C7 (amended): for every acquisition attempt on a method path,
    (a) if the path's configuration sets a non-zero concurrency cap (the
    cap is read through a truthiness test, so a cap of 0 is no cap) and
    the path's in-flight count is at or above it, the attempt is denied
    with a delay of 50 ms and the state is unchanged; (b) otherwise the
    bucket is refilled to [min(maxTokens, tokens + elapsed * tokensPerMs)],
    and if that level is at least 1 the attempt goes through with zero
    delay, one token is taken and the path's in-flight count grows by one
    (the counts of other paths are unchanged); (c) otherwise the attempt
    is denied with delay [ceil((1 - tokens) / tokensPerMs)], the level
    stays at the refilled value and no count changes. *)
Theorem tryAcquire_algorithm (state : RateLimiterState) (methodPath : string)
    (now : Z) :
  let bucket := bucketOf state methodPath now in
  let level := refilled bucket now in
  let state' := (tryAcquire state methodPath now).1 in
  let result := (tryAcquire state methodPath now).2 in
  let configured := is_Some (getConfigForMethod (config state) methodPath) in
  (forall cap,
      capOf state methodPath = Some cap ->
      ge (ofZ (currentCount state methodPath)) cap = true ->
      state' = state /\
      result = {| canProceed := false; delayMs := ofZ 50 |}) /\
  ((forall cap, capOf state methodPath = Some cap ->
                ge (ofZ (currentCount state methodPath)) cap = false) ->
   (ge level (ofZ 1) = true ->
      result = {| canProceed := true; delayMs := ofZ 0 |} /\
      currentCount state' methodPath = (currentCount state methodPath + 1)%Z /\
      (forall other, other <> methodPath ->
         currentCount state' other = currentCount state other) /\
      (configured ->
         exists b, buckets state' !! methodPath = Some b /\
           tokens b = sub level (ofZ 1) /\ lastRefill b = now)) /\
   (ge level (ofZ 1) = false ->
      result = {| canProceed := false;
                  delayMs := ceil (div (sub (ofZ 1) level) (tokensPerMs bucket)) |} /\
      concurrentCount state' = concurrentCount state /\
      (configured ->
         exists b, buckets state' !! methodPath = Some b /\
           tokens b = level /\ lastRefill b = now))).
Proof.
  cbv zeta. split.
  - intros cap Hcap Hge. by rewrite (tryAcquire_capped _ _ now cap).
  - intros Hfree. rewrite (tryAcquire_uncapped _ _ now Hfree).
    unfold bucketOf.
    pose proof (getBucket_counts state methodPath now) as Hcounts.
    pose proof (getBucket_held state methodPath now) as Hheld.
    destruct (getBucket state methodPath now) as [[st1 b0] held].
    simpl in Hcounts, Hheld. cbn [fst snd].
    rewrite refilled_refillBucket. split; intros Hlevel; rewrite Hlevel.
    + cbn [fst snd]. split; [done|]. split; [|split].
      * rewrite currentCount_increment, decide_True by done.
        unfold currentCount. by rewrite writeBucket_counts, Hcounts.
      * intros other Hne. rewrite currentCount_increment, decide_False by done.
        unfold currentCount. by rewrite writeBucket_counts, Hcounts.
      * intros Hcfg. eexists. split.
        { simpl. apply writeBucket_lookup. subst held.
          by apply bool_decide_eq_true_2. }
        done.
    + cbn [fst snd]. split; [done|]. split.
      * by rewrite writeBucket_counts.
      * intros Hcfg. eexists. split.
        { apply writeBucket_lookup. subst held.
          by apply bool_decide_eq_true_2. }
        done.
Qed.

(** The first attempt under two requests per second. *)
Lemma tryAcquire_algorithm_witness :
  (tryAcquire (createRateLimiter twoPerSecond) "fast" 0).2 =
    {| canProceed := true; delayMs := ofZ 0 |} /\
  currentCount (tryAcquire (createRateLimiter twoPerSecond) "fast" 0).1 "fast" = 1%Z.
Proof.
  pose proof (proj2 (tryAcquire_algorithm (createRateLimiter twoPerSecond) "fast" 0))
    as H.
  cbv zeta in H.
  assert (Hfree : forall cap,
             capOf (createRateLimiter twoPerSecond) "fast" = Some cap ->
             ge (ofZ (currentCount (createRateLimiter twoPerSecond) "fast")) cap
               = false) by (intros cap Hcap; discriminate Hcap).
  destruct (proj1 (H Hfree) eq_refl) as (Hres & Hcount & _).
  split; [exact Hres|exact Hcount].
Defined.

Lemma refill_fresh_unlimited c now :
  getRequestsPerSecond c = PInf ->
  refillBucket (createBucket c now) now =
    {| tokens := NaN; lastRefill := now; tokensPerMs := PInf; maxTokens := PInf |}.
Proof.
  intros H. unfold refillBucket, createBucket. cbn [lastRefill tokens tokensPerMs maxTokens].
  rewrite H, Z.sub_diag. reflexivity.
Qed.

(** C8 at a configuration that sets a concurrency cap and no rate: the
    bucket is created with an infinite level and rate, the first refill
    multiplies an elapsed time of zero by that rate, and the level becomes
    [NaN], which is neither at least 0 nor at most [maxTokens]; the attempt
    is denied with a [NaN] delay. *)
Theorem unlimited_bucket_leaves_range (now : Z) :
  (tryAcquire (createRateLimiter capOnly) "slow" now).2 =
    {| canProceed := false; delayMs := NaN |} /\
  exists bucket,
    buckets (tryAcquire (createRateLimiter capOnly) "slow" now).1 !! "slow"
      = Some bucket /\
    tokens bucket = NaN /\ maxTokens bucket = PInf /\ inRange bucket = false.
Proof.
  assert (Hfree : forall cap,
             capOf (createRateLimiter capOnly) "slow" = Some cap ->
             ge (ofZ (currentCount (createRateLimiter capOnly) "slow")) cap
               = false).
  { intros cap Hcap. vm_compute in Hcap. injection Hcap as <-. reflexivity. }
  rewrite (tryAcquire_uncapped _ _ now Hfree).
  unfold getBucket. cbn [config createRateLimiter capOnly getConfigForMethod buckets].
  rewrite lookup_empty.
  rewrite refill_fresh_unlimited by reflexivity.
  change (ge NaN (ofZ 1)) with false. cbv iota. cbn [fst snd].
  split; [reflexivity|].
  eexists. split; [apply writeBucket_lookup; reflexivity|]. done.
Qed.

(** The same product denies every attempt on a path that no entry of a
    per-method configuration covers: its bucket is made anew, unlimited, at
    each attempt. *)
Lemma uncovered_path_is_denied state methodPath now :
  getConfigForMethod (config state) methodPath = None ->
  tryAcquire state methodPath now =
    (state, {| canProceed := false; delayMs := NaN |}).
Proof.
  intros Hc. unfold tryAcquire, getBucket. rewrite Hc. cbn [mbind option_bind].
  cbn [truthyOpt andb]. rewrite refill_fresh_unlimited by reflexivity.
  reflexivity.
Qed.

Example uncovered_path_sample :
  tryAcquire (createRateLimiter slowOnly) "fast" 0 =
    (createRateLimiter slowOnly, {| canProceed := false; delayMs := NaN |}).
Proof. by apply uncovered_path_is_denied. Qed.


End RateLimiterFacts.

(** ** The queue *)

Section QueueFacts.
Import JsNum Queue.

Context {E : Type}.
Implicit Types (state : QueueState E) (r x : QueuedRequest E).

Lemma insertSorted_perm cmp x (l : list (QueuedRequest E)) :
  Permutation (insertSorted cmp x l) (x :: l).
Proof.
  induction l as [|y l IH]; simpl; [done|].
  destruct (cmp x y <=? 0)%Z; [done|]. rewrite IH. apply perm_swap.
Qed.

Lemma sort_perm cmp (l : list (QueuedRequest E)) : Permutation (sort cmp l) l.
Proof.
  induction l as [|x l IH]; simpl; [done|].
  rewrite insertSorted_perm. by constructor.
Qed.

Lemma sortByPriority_trans r x y :
  (sortByPriority r x <= 0)%Z -> (sortByPriority x y <= 0)%Z ->
  (sortByPriority r y <= 0)%Z.
Proof.
  unfold sortByPriority.
  repeat match goal with
         | |- context [(?d =? 0)%Z] => destruct (Z.eqb_spec d 0)
         end; simpl; lia.
Qed.

Lemma sortByPriority_total r x :
  (sortByPriority r x <= 0)%Z \/ (sortByPriority x r <= 0)%Z.
Proof.
  unfold sortByPriority.
  repeat match goal with
         | |- context [(?d =? 0)%Z] => destruct (Z.eqb_spec d 0)
         end; simpl; lia.
Qed.

(** The head of the sorted queue comes before every queued request. *)
Lemma sort_head_first (l : list (QueuedRequest E)) r rest :
  sort sortByPriority l = r :: rest ->
  forall x, x ∈ l -> (sortByPriority r x <= 0)%Z.
Proof.
  revert r rest. induction l as [|y l IH]; intros r rest Hs x Hx.
  - by apply elem_of_nil in Hx.
  - simpl in Hs. destruct (sort sortByPriority l) as [|h t] eqn:Hl.
    + simpl in Hs. injection Hs as <- <-.
      pose proof (sort_perm sortByPriority l) as Hp. rewrite Hl in Hp.
      apply Permutation_nil in Hp as ->.
      apply list_elem_of_singleton in Hx as ->.
      destruct (sortByPriority_total y y); done.
    + simpl in Hs. destruct (sortByPriority y h <=? 0)%Z eqn:Hc.
      * injection Hs as <- <-. apply Z.leb_le in Hc.
        apply elem_of_cons in Hx as [->|Hx].
        { destruct (sortByPriority_total y y); done. }
        eapply sortByPriority_trans; [exact Hc|]. by eapply IH.
      * injection Hs as <- <-. apply Z.leb_gt in Hc.
        apply elem_of_cons in Hx as [->|Hx]; [|by eapply IH].
        destruct (sortByPriority_total h y); [done|lia].
Qed.

(** One trigger admits at most one request: the one that sorts first. *)
Lemma processNext_one state state' started :
  processNext state = (state', started) ->
  match started with
  | None => queue state' ≡ₚ queue state /\ running state' = running state
  | Some r =>
      queue state ≡ₚ r :: queue state' /\
      running state' = (running state + 1)%Z /\
      forall x, x ∈ queue state -> (sortByPriority r x <= 0)%Z
  end.
Proof.
  unfold processNext. destruct (canProcessNext state) eqn:Hc; simpl.
  - pose proof (sort_perm sortByPriority (queue state)) as Hp.
    destruct (sort sortByPriority (queue state)) as [|r rest] eqn:Hs;
      intros [= <- <-]; simpl.
    + done.
    + split; [done|]. split; [done|]. by eapply sort_head_first.
  - intros [= <- <-]. done.
Qed.

Lemma canProcessNext_false state :
  canProcessNext state = false <->
  paused state = true \/
  ge (ofZ (running state)) (default PInf (concurrency (config state))) = true \/
  queue state = [].
Proof.
  unfold canProcessNext. destruct (paused state); [tauto|].
  destruct (ge _ _); [tauto|].
  rewrite bool_decide_eq_false. destruct (queue state); simpl.
  - split; [auto|]. intros _. lia.
  - split; [lia|]. intros [?|[?|?]]; done.
Qed.

Lemma processNext_cases state :
  (canProcessNext state = false /\ processNext state = (state, None)) \/
  (canProcessNext state = true /\
   exists r rest, sort sortByPriority (queue state) = r :: rest /\
     processNext state =
       ({| queue := rest; running := (running state + 1)%Z;
           paused := paused state; nextId := nextId state;
           config := config state |}, Some r)).
Proof.
  unfold processNext. destruct (canProcessNext state) eqn:Hc; simpl; [|by left].
  right. split; [done|].
  pose proof (sort_perm sortByPriority (queue state)) as Hp.
  destruct (sort sortByPriority (queue state)) as [|r rest]; [|eauto].
  apply Permutation_nil in Hp.
  assert (canProcessNext state = false) by (apply canProcessNext_false; auto).
  congruence.
Qed.

Lemma enqueue_keeps_drained state path prio exec :
  paused state = false -> drained state ->
  drained (afterEnqueue state (enqueue state path prio exec)).
Proof.
  unfold drained. intros Hp Hd. unfold enqueue.
  destruct (ge (ofZ (Z.of_nat _)) _); [done|].
  match goal with |- context [processNext ?s] => set (state1 := s) end.
  destruct (processNext_cases state1) as [[Hc ->] | [Hc (r & rest & Hs & ->)]];
    [done|]. simpl.
  apply canProcessNext_false. simpl.
  apply canProcessNext_false in Hd as [Hd|[Hd|Hd]]; [congruence| |].
  - assert (canProcessNext state1 = false); [|congruence].
    apply canProcessNext_false. auto.
  - right. right. subst state1. simpl in Hs. rewrite Hd in Hs. simpl in Hs.
    by injection Hs as <- <-.
Qed.

Lemma settle_keeps_drained state :
  paused state = false -> drained state -> drained (settle state).1.
Proof.
  unfold drained, settle. intros Hp Hd.
  match goal with |- context [processNext ?s] => set (state1 := s) end.
  destruct (processNext_cases state1) as [[Hc ->] | [Hc (r & rest & Hs & ->)]];
    [done|]. simpl.
  apply canProcessNext_false. simpl. rewrite Z.sub_add.
  apply canProcessNext_false in Hd as [Hd|[Hd|Hd]]; [congruence|auto|].
  assert (canProcessNext state1 = false); [|congruence].
  apply canProcessNext_false. auto.
Qed.

End QueueFacts.

Section QueueRuns.
Import JsNum Queue.

Example paused_priorities_dispatch :
  let '(state, started) := resumeQueue pausedPriorities in
  dispatchOrder 10 state started = ["c"; "h"; "n"; "l"].
Proof. vm_compute. reflexivity. Qed.

(** C3 at a backlog behind a pause: two slots, two calls enqueued while the
    queue was paused. [resume] runs one admission and returns: one call is
    running, the other is still queued, the queue is not paused and
    [running] (1) is below [concurrency] (2). *)
Theorem resume_starts_only_one :
  let state := (resumeQueue pausedBacklog).1 in
  map execute (queue pausedBacklog) = ["first"; "second"] /\
  concurrency (config state) = Some (ofZ 2) /\
  paused state = false /\
  running state = 1%Z /\
  ge (ofZ (running state)) (ofZ 2) = false /\
  map execute (queue state) = ["second"] /\
  canProcessNext state = true.
Proof. vm_compute. done. Qed.

End QueueRuns.

(** ** The hook and plugin pipeline *)

Section PipelineFacts.
Import Js JsNum Trace Types State Wrap.
Context {U : Type}.
Implicit Types (w : World U) (u : U) (ctx : Plugin.PluginContext).
Local Open Scope pipeline_scope.









Lemma handleError_not_an_Error (hooks : option (WrapHooks U)) (call : Call U)
    err w :
  isError err = false -> handleError hooks call err w = (w, inr err).
Proof.
  intros He. unfold handleError. rewrite He.
  by destruct (hooks ≫= onError).
Qed.




Lemma runMethodWithPlugins_not_an_Error (call : Call U)
    (executions : list (Plugin.PluginExecution U)) u l u2 err :
  fn call (args call) u = (u2, inr err) ->
  isError err = false ->
  runMethodWithPlugins call executions {| user := u; log := l |} =
    ({| user := u2; log := l ++ [Underlying (methodPath call) (args call)] |},
     inr err).
Proof.
  intros Hfn He.
  unfold runMethodWithPlugins, tryCatch, bind at 1 2, run, record.
  simpl. rewrite Hfn. simpl. rewrite He. unfold bind, ret.
  by rewrite handleError_not_an_Error.
Qed.




End PipelineFacts.

Section PipelineRuns.
Import Js JsNum Trace Types State Wrap Samples.






End PipelineRuns.

(** ** The wrapper *)

Section WrapFacts.
Import Js JsNum Trace Types State Wrap Solo Machine.
Context {U : Type}.
Implicit Types (s : Shared U) (call : Call U) (w : World U).






(** *** The statistics nobody computes and the event nobody emits *)

Create HintDb inert discriminated.

Lemma inert_emitEvent s data :
  eventName data <> error -> inert s -> inert (emitEvent s data).
Proof.
  intros Hn (He & Hr & Hev). split; [done|]. split; [done|].
  simpl. apply Forall_app. split; [done|]. by constructor.
Qed.

Lemma inert_updateStats s latencyMs : inert s -> inert (updateStats s latencyMs).
Proof. intros (He & Hr & Hev). done. Qed.

Lemma inert_withQueue s q : inert s -> inert (withQueue s q).
Proof. done. Qed.

Lemma inert_withLimiter s r : inert s -> inert (withLimiter s r).
Proof. done. Qed.

#[local] Hint Resolve inert_emitEvent inert_updateStats inert_withQueue
  inert_withLimiter : inert.
#[local] Hint Extern 1 (eventName _ <> error) => discriminate : inert.

(** Split the pair a step returns, keeping what is known of its state. *)
Ltac split_step f :=
  match goal with
  | H : inert (f ?a ?b ?c).1 |- context [f ?a ?b ?c] =>
      destruct (f a b c); simpl in H |- *
  end.

Lemma inert_waitForRateLimit s path now :
  inert s -> inert (waitForRateLimit s path now).1.
Proof.
  intros H. unfold waitForRateLimit. destruct (rateLimiter s) as [limiter|]; [|done].
  destruct (RateLimiter.tryAcquire limiter path now) as [limiter' result].
  destruct (RateLimiter.canProceed result); simpl; auto with inert.
Qed.

Lemma inert_executeCore s path now : inert s -> inert (executeCore s path now).1.
Proof.
  intros H. unfold executeCore. apply inert_waitForRateLimit. auto with inert.
Qed.

Lemma inert_emitCompletion s path startTime now :
  inert s -> inert (emitCompletion s path startTime now).
Proof.
  intros H. unfold emitCompletion.
  match goal with |- context [rateLimiter ?x] => assert (inert x) as Hx end.
  { auto with inert. }
  destruct (rateLimiter _); auto with inert.
Qed.

Lemma inert_begin s started now : inert s -> inert (begin s started now).1.
Proof.
  intros H. unfold begin. destruct started as [request|]; [|done].
  pose proof (inert_executeCore s (Queue.methodPath request) now H) as Hc.
  by split_step (@executeCore U).
Qed.

#[local] Hint Resolve inert_waitForRateLimit inert_executeCore
  inert_emitCompletion inert_begin : inert.

Lemma inert_executeWithHooks s call now :
  inert s -> inert (executeWithHooks s call now).1.
Proof.
  intros H. unfold executeWithHooks.
  destruct (checkMethodAccess _ _); [done|].
  destruct (queueState s) as [q|].
  - destruct (Queue.enqueue q _ _ _) as [message|requestId q' started];
      [simpl; auto with inert|].
    match goal with |- context [begin ?x ?y ?z] =>
      assert (inert (begin x y z).1) as Hb by auto with inert end.
    by split_step (@begin U).
  - pose proof (inert_executeCore s (methodPath call) now H) as Hc.
    by split_step (@executeCore U).
Qed.

Lemma inert_step s (op : Op U) : inert s -> inert (step s op).
Proof.
  intros H. destruct op; simpl; auto using inert_executeWithHooks with inert.
  - unfold settleQueued. destruct (queueState s) as [q|]; [|done].
    destruct (Queue.settle q). auto with inert.
  - unfold pause. by destruct (queueState s).
  - unfold resume. destruct (queueState s) as [q|]; [|done].
    destruct (Queue.resumeQueue q). auto with inert.
  - unfold clear. by destruct (queueState s).
  - unfold createOff. by destruct (listeners s !! event).
Qed.

(** C10: in every state a wrapper reaches from its initial state through
    calls of its methods, acquisition attempts, completions, settlements,
    queue control and listener registration, [errorRate] and
    [requestsPerMinute] are 0 and no [error] event has been emitted. *)
Theorem errorRate_and_error_event_inert (cfg : option (WrapConfig U))
    (ops : list (Op U)) :
  let s := runOps (createInitialState cfg) ops in
  errorRate (stats s) = ofZ 0 /\
  requestsPerMinute (stats s) = ofZ 0 /\
  Forall (fun e => eventName e <> error) (emitted s).
Proof.
  cbv zeta. change (inert (runOps (createInitialState cfg) ops)).
  assert (H0 : inert (createInitialState cfg)) by (repeat split; constructor).
  revert H0. generalize (createInitialState cfg).
  induction ops as [|op ops IH]; intros s Hs; [done|].
  simpl. apply IH. by apply inert_step.
Qed.

End WrapFacts.

Section OverlayFacts.
Import Js JsNum Trace Types State Wrap Solo Samples.


(** With a queue configured, a call that passes the access check goes to
    [enqueue], whatever the options of its view. *)
Lemma queue_configured_never_direct {U : Type} (s : Shared U) (call : Call U)
    now q :
  queueState s = Some q ->
  forall adm, (executeWithHooks s call now).2 <> Direct adm.
Proof.
  intros Hq adm. unfold executeWithHooks. rewrite Hq.
  destruct (checkMethodAccess _ _); [done|].
  destruct (Queue.enqueue q _ _ _) as [message|requestId q' started]; [done|].
  by destruct (begin _ _ _).
Qed.

(** Without a queue, a call settles the same way whatever the options of
    its view: no timer is armed on this path. *)
Lemma no_queue_ignores_options {U : Type} (s : Shared U) (w : World U)
    (state : WrapperState U) (opts opts' : PerCallOptions) f path args
    fuel latency now :
  queueState s = None ->
  soloCall fuel s w
    {| fn := f; args := args; methodPath := path;
       view := createWithOptions state opts |} latency now =
  soloCall fuel s w
    {| fn := f; args := args; methodPath := path;
       view := createWithOptions state opts' |} latency now.
Proof.
  intros Hq. unfold soloCall, executeWithHooks. simpl.
  unfold checkMethodAccess. simpl. rewrite Hq. reflexivity.
Qed.

(** C1 at the wrapper of the repository's own test: a queue of one slot.
    A call through [withOptions({skipQueue: true})] is handed to [enqueue]
    like any other: while the queue is paused it stays in the queue and the
    wrapped callable is not called; with a free slot it is started by
    [processNext] and counts as running. *)
Theorem skipQueue_call_is_enqueued :
  let call := callOf (skipQueueView oneSlotConfig) succeeding in
  let idle := createInitialState oneSlotConfig in
  (exists s1,
      soloCall 10 (pause idle) emptyWorld call 5 0 =
        Some (s1, emptyWorld, Pending) /\
      queuedIds s1 = [0%Z] /\
      emitted s1 = [Queued "chat.completions.create" 1]) /\
  (exists request,
      (executeWithHooks idle call 0).2 = InQueue 0 (Some (request, Granted)) /\
      runningCount (executeWithHooks idle call 0).1 = 1%Z /\
      emitted (executeWithHooks idle call 0).1 =
        [Queued "chat.completions.create" 1;
         Executing "chat.completions.create" 1]).
Proof.
  cbv zeta. split.
  - eexists. split; [vm_compute; reflexivity|]. split; reflexivity.
  - eexists. split; [vm_compute; reflexivity|]. split; reflexivity.
Qed.

(** C2 at the repository's own test: a wrapper without configuration, a
    call through [withOptions({timeout: 10})] whose wrapped callable takes
    100 ms. No timer is armed: the call resolves with the real result after
    100 ms. *)
Theorem per_call_timeout_is_not_armed :
  exists s1 w1,
    soloCall 10 (createInitialState None) emptyWorld
      (callOf (timeoutView None 10) succeeding) 100 0 =
      Some (s1, w1, Settled 100 (inl (VStr "result"))).
Proof. eexists _, _. vm_compute. reflexivity. Qed.

(** The only timer of the source is the queue's, armed from the
    configuration of the queue and rejecting with a fixed message. *)
Example queue_timeout_rejects :
  let cfg := configOf None
               (Some {| Queue.concurrency := None;
                        Queue.timeout := Some (ofZ 50);
                        Queue.maxSize := None |}) in
  exists s1 w1,
    soloCall 10 (createInitialState cfg) emptyWorld
      (callOf (initialView cfg) succeeding) 200 0 =
      Some (s1, w1, Settled 50 (inr (VError "Request timed out"))).
Proof. eexists _, _. vm_compute. reflexivity. Qed.

End OverlayFacts.

(** ** More on patterns and on the access check *)

Section GlobMore.
Import Str Glob.

Lemma join_split_dot (s : chars) : join [dot] (split_dot s) = s.
Proof.
  induction s as [|c s IH]; [done|]. simpl.
  destruct (split_dot_cons s) as (p & ps & E). rewrite E in *.
  rewrite join_cons in IH.
  destruct (Ascii.eqb c dot) eqn:Hc.
  - apply Ascii.eqb_eq in Hc as ->. rewrite join_cons. simpl. by rewrite IH.
  - rewrite join_cons. simpl. by rewrite IH.
Qed.

Lemma tailOf_literally (parts : list chars) :
  tailOf (Lit dot) (map literally parts) = literally (tailOf dot parts).
Proof.
  unfold tailOf, literally. induction parts as [|p ps IH]; [done|].
  simpl. by rewrite IH, map_app.
Qed.

Lemma join_literally (parts : list chars) :
  join [Lit dot] (map literally parts) = literally (join [dot] parts).
Proof.
  destruct parts as [|p ps]; [done|].
  change (map literally (p :: ps)) with (literally p :: map literally ps).
  rewrite (join_cons dot), (join_cons (Lit dot)), tailOf_literally.
  unfold literally. by rewrite map_app.
Qed.

Lemma test_literally p s : test (literally p) s = true <-> s = p.
Proof.
  rewrite <- (app_nil_r (literally p)), test_lits. split.
  - intros (post & -> & H). destruct post; [by rewrite app_nil_r|done].
  - intros ->. exists []. by rewrite app_nil_r.
Qed.

(** X1: a pattern none of whose parts is exactly [*] or [**] matches one
    path only: itself. A star inside a part ([files.cre*]) is a literal
    character, and so is every character [escapeRegex] escapes. *)
Theorem literal_pattern_matches_only_itself (pattern methodPath : string) :
  Forall (fun part => part <> ["*"]%char /\ part <> ["*"; "*"]%char)
    (split_dot (list_ascii_of_string pattern)) ->
  matchPattern methodPath pattern = true <-> methodPath = pattern.
Proof.
  intros Hlit. unfold matchPattern. rewrite RegExp_regexSource. unfold compiled.
  assert (map regexPart (split_dot (list_ascii_of_string pattern)) =
          map literally (split_dot (list_ascii_of_string pattern))) as ->.
  { apply Forall_fmap_ext_1. eapply Forall_impl; [exact Hlit|].
    intros part [H1 H2]. unfold regexPart.
    by rewrite decide_False, decide_False. }
  rewrite join_literally, join_split_dot, test_literally. split.
  - intros H. apply (f_equal string_of_list_ascii) in H.
    by rewrite !string_of_list_ascii_of_string in H.
  - by intros ->.
Qed.

Lemma nonempty_chars (s : string) :
  list_ascii_of_string s <> [] <-> s <> EmptyString.
Proof. destruct s; simpl; split; congruence. Qed.

Lemma plus_alone cls (s : chars) :
  test [Plus cls] s = true <-> s <> [] /\ forallb (inClass cls) s = true.
Proof.
  simpl. rewrite plus_true. split.
  - intros (pre & post & -> & Hne & Hall & Hpost).
    destruct post; [|done]. by rewrite app_nil_r.
  - intros [Hne Hall]. exists s, []. by rewrite app_nil_r.
Qed.

(** X2: the two wildcards on their own. The pattern [*] matches exactly
    the non-empty paths without a dot, whatever else they hold; the pattern
    [**] matches exactly the non-empty paths without a line terminator,
    dots or not. *)
Theorem wildcard_alone (methodPath : string) :
  (matchPattern methodPath "*" = true <->
   methodPath <> EmptyString /\
   Forall (fun c => c <> dot) (list_ascii_of_string methodPath)) /\
  (matchPattern methodPath "**" = true <->
   methodPath <> EmptyString /\
   noLineTerminator (list_ascii_of_string methodPath)).
Proof.
  unfold matchPattern. rewrite !RegExp_regexSource.
  change (compiled "*") with [Plus NotDot].
  change (compiled "**") with [Plus AnyChar].
  by rewrite !plus_alone, forallb_notDot, forallb_anyChar, nonempty_chars.
Qed.

Lemma literal_pattern_matches_only_itself_witness :
  matchPattern "files.create" "files.cre*" = true <->
  "files.create" = "files.cre*".
Proof.
  apply (literal_pattern_matches_only_itself "files.cre*" "files.create").
  repeat constructor; discriminate.
Defined.

End GlobMore.

(** ** The proxy *)

Section ProxyFacts.
Import Js JsNum Types State Wrap Str Proxy.
Context {U : Type}.
Implicit Types (ctx : ProxyContext U) (target root : list (string * Client U))
  (names prefix : list string) (st : WrapperState U).

Lemma string_of_list_ascii_app (a b : chars) :
  string_of_list_ascii (a ++ b) = string_of_list_ascii a +:+ string_of_list_ascii b.
Proof. induction a as [|c a IH]; [done|]. simpl. by rewrite IH. Qed.

Lemma join_snoc (ps : list chars) (p : chars) :
  ps <> [] -> join [dot] (ps ++ [p]) = join [dot] ps ++ dot :: p.
Proof.
  destruct ps as [|q qs]; [done|]. intros _.
  change ((q :: qs) ++ [p]) with (q :: (qs ++ [p])).
  rewrite !join_cons, tailOf_app. simpl. by rewrite app_nil_r, <- app_assoc.
Qed.

Lemma joinPath_snoc prefix name :
  prefix <> [] ->
  joinPath (map list_ascii_of_string (prefix ++ [name])) =
    joinPath (map list_ascii_of_string prefix) +:+ "." +:+ name.
Proof.
  intros Hne. unfold joinPath. rewrite map_app. simpl.
  rewrite join_snoc by (by destruct prefix).
  rewrite string_of_list_ascii_app. simpl.
  by rewrite string_of_list_ascii_of_string.
Qed.

Lemma joinPath_nonempty prefix :
  prefix <> [] -> Forall (fun n => n <> EmptyString) prefix ->
  joinPath (map list_ascii_of_string prefix) <> EmptyString.
Proof.
  destruct prefix as [|n ns]; [done|]. intros _ Hns.
  apply Forall_cons_1 in Hns as [Hn _]. unfold joinPath.
  change (map list_ascii_of_string (n :: ns))
    with (list_ascii_of_string n :: map list_ascii_of_string ns).
  rewrite join_cons, string_of_list_ascii_app, string_of_list_ascii_of_string.
  by destruct n.
Qed.

Lemma handleWrapperProperty_forwarded name st root :
  forwarded name -> handleWrapperProperty name st root = None.
Proof.
  intros (_ & Hkeys & Hproto). unfold handleWrapperProperty.
  repeat match goal with
         | |- context [String.eqb name ?k] =>
             destruct (String.eqb_spec name k) as [->|_];
               [exfalso; apply Hkeys; unfold wrapperKeys; set_solver|]
         end.
  by rewrite bool_decide_eq_false_2.
Qed.

Lemma handleWrapperProperty_key name st root :
  name ∈ wrapperKeys -> exists w, handleWrapperProperty name st root = Some w.
Proof.
  unfold wrapperKeys. intros H.
  repeat (apply elem_of_cons in H as [->|H]; [by eexists|]).
  by apply elem_of_nil in H.
Qed.

(** The path a nested proxy carries is the dotted sequence of the names
    that led to it. *)
Lemma access_path names : forall prefix target ctx f,
  Forall forwarded names -> Forall (fun n => n <> EmptyString) prefix ->
  path ctx = joinPath (map list_ascii_of_string prefix) ->
  resolve target names = Some (Fn f) ->
  access ctx target names =
    Some (Wrapped f (state ctx)
            (joinPath (map list_ascii_of_string (prefix ++ names)))).
Proof.
  induction names as [|name rest IH]; intros prefix target ctx f Hfw Hpre Hpath Hres;
    [done|].
  apply Forall_cons_1 in Hfw as [Hname Hfw].
  assert (HnewPath :
            (if String.eqb (path ctx) EmptyString then name
             else path ctx +:+ "." +:+ name) =
            joinPath (map list_ascii_of_string (prefix ++ [name]))).
  { destruct prefix as [|p ps].
    - rewrite Hpath. simpl. unfold joinPath. simpl.
      by rewrite string_of_list_ascii_of_string.
    - rewrite joinPath_snoc by done. rewrite <- Hpath.
      destruct (String.eqb_spec (path ctx) EmptyString) as [He|]; [|done].
      rewrite Hpath in He. by apply joinPath_nonempty in He. }
  destruct rest as [|name' rest].
  - simpl in *. injection Hres as Hres. unfold get.
    rewrite handleWrapperProperty_forwarded by done. cbv zeta.
    by rewrite Hres, HnewPath.
  - change (access ctx target (name :: name' :: rest))
      with (match get ctx target name with
            | Nested target' ctx' => access ctx' target' (name' :: rest)
            | _ => None
            end).
    change (resolve target (name :: name' :: rest))
      with (match ReflectGet target name with
            | Obj props => resolve props (name' :: rest)
            | _ => None
            end) in Hres.
    unfold get. rewrite handleWrapperProperty_forwarded by done. cbv zeta.
    destruct (ReflectGet target name) as [g|props|p]; [done| |done].
    rewrite (IH (prefix ++ [name]) props _ f Hfw); [|  |done|done].
    + by rewrite <- app_assoc.
    + apply Forall_app. split; [done|]. constructor; [|done]. apply Hname.
Qed.

(** X3: the method path of a call is the dotted sequence of the property
    names that led to the function. When the names are forwarded ones (not
    empty, not one of the wrapper's own and not one [Object.prototype]
    defines) and lead to a function of the client through nested objects,
    the access on the proxy gives that function wrapped, with the state of
    the proxy and the names joined by dots as its path. *)
Theorem method_path_is_the_dotted_names st root names
    (f : list value -> eff U value) :
  Forall forwarded names -> resolve root names = Some (Fn f) ->
  access {| state := st; rootClient := root; path := EmptyString |} root names =
    Some (Wrapped f st (joinPath (map list_ascii_of_string names))).
Proof.
  intros Hfw Hres.
  by apply (access_path names [] root
              {| state := st; rootClient := root; path := EmptyString |} f).
Qed.

(** X4: the six names of the wrapper ([on], [off], [withOptions], [use],
    [stats], [queue]) are answered by the wrapper at every depth: an access
    path that holds one of them never gives a function, an object or a value
    of the client. *)
Theorem wrapper_names_shadow_the_client names : forall ctx target got,
  Exists (fun name => name ∈ wrapperKeys) names ->
  access ctx target names = Some got ->
  exists w, got = WrapperProp w.
Proof.
  induction names as [|name rest IH]; intros ctx target got Hex Hacc; [done|].
  destruct rest as [|name' rest].
  - simpl in Hacc. injection Hacc as <-.
    apply Exists_cons in Hex as [Hkey|Hex]; [|by apply Exists_nil in Hex].
    destruct (handleWrapperProperty_key name (state ctx) (rootClient ctx) Hkey)
      as (w & Hw).
    unfold get. rewrite Hw. eauto.
  - change (access ctx target (name :: name' :: rest))
      with (match get ctx target name with
            | Nested target' ctx' => access ctx' target' (name' :: rest)
            | _ => None
            end) in Hacc.
    apply Exists_cons in Hex as [Hkey|Hex].
    + destruct (handleWrapperProperty_key name (state ctx) (rootClient ctx) Hkey)
        as (w & Hw).
      unfold get in Hacc. by rewrite Hw in Hacc.
    + destruct (get ctx target name) as [w|target' ctx'|g st' p|p]; try done.
      by eapply IH.
Qed.

Lemma nested_keeps_root names : forall ctx target target' ctx',
  access ctx target names = Some (Nested target' ctx') ->
  state ctx' = state ctx /\ rootClient ctx' = rootClient ctx.
Proof.
  induction names as [|name rest IH]; intros ctx target target' ctx' Hacc; [done|].
  assert (Hget : forall t c, get ctx target name = Nested t c ->
                             state c = state ctx /\ rootClient c = rootClient ctx).
  { intros t c. unfold get.
    destruct (handleWrapperProperty _ _ _); [done|]. cbv zeta.
    destruct (ReflectGet target name); [done| |done]. by intros [= _ <-]. }
  destruct rest as [|name' rest].
  - simpl in Hacc. injection Hacc as Hacc. by apply Hget in Hacc.
  - change (access ctx target (name :: name' :: rest))
      with (match get ctx target name with
            | Nested target' ctx' => access ctx' target' (name' :: rest)
            | _ => None
            end) in Hacc.
    destruct (get ctx target name) as [w|t c|g st' p|p] eqn:Hg; try done.
    destruct (Hget t c eq_refl) as [<- <-]. by eapply IH.
Qed.

(** X5: [withOptions] and [use] taken on the proxy of a nested object
    return a view of the whole client: the names that led to the nested
    object are forgotten, so the paths of the calls made through the view
    start at the root again, and they carry the new options or the added
    plugin. *)
Theorem derived_view_starts_at_the_root st root names target ctx
    (opts : PerCallOptions) (plugin : Plugin.Plugin U) :
  access {| state := st; rootClient := root; path := EmptyString |} root names =
    Some (Nested target ctx) ->
  get ctx target "withOptions" = WrapperProp (WithOptionsFn st root) /\
  get ctx target "use" = WrapperProp (UseFn st root) /\
  forall names' (f : list value -> eff U value),
    Forall forwarded names' -> resolve root names' = Some (Fn f) ->
    access (withOptions st root opts).2 (withOptions st root opts).1 names' =
      Some (Wrapped f (createWithOptions st opts)
              (joinPath (map list_ascii_of_string names'))) /\
    access (use st root plugin).2 (use st root plugin).1 names' =
      Some (Wrapped f (createUse st plugin)
              (joinPath (map list_ascii_of_string names'))).
Proof.
  intros Hacc. apply nested_keeps_root in Hacc as [Hst Hroot]. simpl in Hst, Hroot.
  split; [|split].
  - unfold get. simpl. by rewrite Hst, Hroot.
  - unfold get. simpl. by rewrite Hst, Hroot.
  - intros names' f Hfw Hres.
    split; by apply (access_path names' []).
Qed.

(** X6: [wrap] refuses a configuration that names both lists, even empty
    ones, and accepts every other one; so on a wrapper that [wrap] has
    made, one list at most decides: the blocklist refuses what it matches,
    the allowlist what it does not match, and without a list every path is
    let through. *)
Theorem wrap_accepts_one_list (client : list (string * Client U))
    (cfg : option (WrapConfig U)) :
  (is_Some (cfg ≫= allowlist) -> is_Some (cfg ≫= blocklist) ->
   wrap client cfg =
     inl (VError
            "Cannot specify both allowlist and blocklist. Use one or the other.")) /\
  (forall s proxy,
      wrap client cfg = inr (s, proxy) ->
      s = createInitialState cfg /\
      proxy = (client, {| state := initialView cfg; rootClient := client;
                          path := EmptyString |}) /\
      forall methodPath,
        checkMethodAccess (initialView cfg) methodPath =
          match cfg ≫= blocklist, cfg ≫= allowlist with
          | Some bl, _ =>
              if Glob.matchesAnyPattern methodPath bl
              then Some (VError (Glob.blockedReason methodPath)) else None
          | None, Some al =>
              if Glob.matchesAnyPattern methodPath al then None
              else Some (VError (Glob.notAllowedReason methodPath))
          | None, None => None
          end).
Proof.
  unfold wrap, validateConfig. split.
  - intros [al Hal] [bl Hbl]. destruct cfg as [c|]; [|done]. simpl in *.
    by rewrite Hal, Hbl.
  - intros s proxy Hwrap.
    assert (Hone : cfg ≫= allowlist = None \/ cfg ≫= blocklist = None).
    { destruct cfg as [c|]; [|by left]. simpl.
      destruct (allowlist c), (blocklist c); auto. done. }
    assert (Hvalid : match cfg with
                     | Some c =>
                         match allowlist c, blocklist c with
                         | Some _, Some _ =>
                             Some (VError
                               "Cannot specify both allowlist and blocklist. Use one or the other.")
                         | _, _ => None
                         end
                     | None => None
                     end = None).
    { destruct cfg as [c|]; [|done]. simpl in Hone.
      destruct Hone as [-> | Hbl]; [done|]. rewrite Hbl.
      by destruct (allowlist c). }
    rewrite Hvalid in Hwrap. injection Hwrap as <- <-.
    split; [done|]. split; [done|]. intros methodPath.
    unfold checkMethodAccess, Glob.checkAccess. simpl.
    destruct Hone as [-> | ->].
    + destruct (cfg ≫= blocklist) as [bl|]; [|done].
      by destruct (Glob.matchesAnyPattern methodPath bl).
    + destruct (cfg ≫= allowlist) as [al|]; [|done].
      by destruct (Glob.matchesAnyPattern methodPath al).
Qed.

End ProxyFacts.

(** ** Bounds the queue keeps *)

Section QueueBounds.
Import JsNum Queue.
Context {E : Type}.
Implicit Types (state : QueueState E) (r x : QueuedRequest E).

Lemma ge_ofZ a b : ge (ofZ a) (ofZ b) = true <-> (b <= a)%Z.
Proof. unfold ofZ. by rewrite ge_Fin, <- Zle_Qle. Qed.

Lemma processNext_fields state :
  config (processNext state).1 = config state /\
  paused (processNext state).1 = paused state /\
  nextId (processNext state).1 = nextId state.
Proof.
  by destruct (processNext_cases state) as [[_ ->]|[_ (r & rest & _ & ->)]].
Qed.

Lemma processNext_running state n :
  concurrency (config state) = Some (ofZ n) ->
  (running state <= n)%Z -> (running (processNext state).1 <= n)%Z.
Proof.
  intros Hc Hr.
  destruct (processNext_cases state) as [[_ ->]|[Hcan (r & rest & _ & ->)]];
    [done|].
  simpl. unfold canProcessNext in Hcan. destruct (paused state); [done|].
  rewrite Hc in Hcan. simpl in Hcan.
  destruct (ge (ofZ (running state)) (ofZ n)) eqn:Hge; [done|].
  assert (~ (n <= running state)%Z) by (rewrite <- ge_ofZ; congruence). lia.
Qed.

(** What is still queued after a trigger was queued before it. *)
Lemma processNext_queue state :
  exists started, started ++ queue (processNext state).1 ≡ₚ queue state.
Proof.
  destruct (processNext state) as [state' started] eqn:Hp.
  apply processNext_one in Hp. destruct started as [r|]; simpl.
  - exists [r]. by destruct Hp as [-> _].
  - exists []. by destruct Hp as [-> _].
Qed.


(** An invariant of the queue is kept by every operation as soon as the
    writes the operations are made of keep it: an admission, the push of an
    accepted request, the release of a slot, a write to [paused], and the
    removal of everything queued. *)
Lemma queue_invariant (P : QueueState E -> Prop) :
  (forall state, P state -> P (processNext state).1) ->
  (forall state path prio exec,
      ge (ofZ (Z.of_nat (length (queue state))))
         (default PInf (maxSize (config state))) = false ->
      P state ->
      P {| queue := queue state ++
                    [{| id := nextId state; priority := prio; execute := exec;
                        methodPath := path |}];
           running := running state; paused := paused state;
           nextId := (nextId state + 1)%Z; config := config state |}) ->
  (forall state, P state ->
      P {| queue := queue state; running := (running state - 1)%Z;
           paused := paused state; nextId := nextId state;
           config := config state |}) ->
  (forall state b, P state ->
      P {| queue := queue state; running := running state; paused := b;
           nextId := nextId state; config := config state |}) ->
  (forall state, P state ->
      P {| queue := []; running := running state; paused := paused state;
           nextId := nextId state; config := config state |}) ->
  forall state, P state ->
    (forall path prio exec, P (afterEnqueue state (enqueue state path prio exec))) /\
    P (settle state).1 /\ P (pauseQueue state) /\ P (resumeQueue state).1 /\
    P (clearQueue state).1.
Proof.
  intros Hnext Hpush Hrelease Hpaused Hclear state HP. split_and!.
  - intros path prio exec. unfold enqueue.
    destruct (ge _ _) eqn:Hfull; [done|].
    match goal with |- context [processNext ?s1] =>
      pose proof (Hnext s1 (Hpush state path prio exec Hfull HP)) as H;
      destruct (processNext s1) end.
    done.
  - apply Hnext, Hrelease, HP.
  - apply Hpaused, HP.
  - apply Hnext, Hpaused, HP.
  - apply Hclear, HP.
Qed.

Lemma freshIds_kept state :
  freshIds state ->
  (forall path prio exec,
      freshIds (afterEnqueue state (enqueue state path prio exec))) /\
  freshIds (settle state).1 /\ freshIds (pauseQueue state) /\
  freshIds (resumeQueue state).1 /\ freshIds (clearQueue state).1.
Proof.
  apply (queue_invariant freshIds); unfold freshIds; try done.
  - intros st [Hlt Hnd].
    destruct (processNext_queue st) as (started & Hp).
    destruct (processNext_fields st) as (_ & _ & ->).
    rewrite <- Hp in Hlt, Hnd. rewrite map_app in Hnd.
    apply Forall_app in Hlt as [_ Hlt]. apply NoDup_app in Hnd as (_ & _ & Hnd).
    done.
  - intros st path prio exec _ [Hlt Hnd]. simpl. split.
    + apply Forall_app. split.
      * eapply Forall_impl; [exact Hlt|]. simpl. intros; lia.
      * repeat constructor. simpl. lia.
    + rewrite map_app. apply NoDup_app. split; [done|]. split.
      * intros i Hi Hin. simpl in Hin. apply list_elem_of_singleton in Hin as ->.
        apply list_elem_of_fmap in Hi as (r & Hr & Hin).
        rewrite Forall_forall in Hlt. specialize (Hlt r Hin). lia.
      * simpl. apply NoDup_singleton.
  - intros st _. simpl. split; constructor.
Qed.

Lemma processNext_startsFirst state state' r :
  NoDup (map id (queue state)) -> processNext state = (state', Some r) ->
  startsFirst r (queue state) (queue state').
Proof.
  intros Hnd Hp. apply processNext_one in Hp as (Hperm & _ & Hmin).
  split; [done|]. intros x Hx.
  assert (Hin : x ∈ queue state) by (rewrite Hperm; by right).
  specialize (Hmin x Hin). rewrite Hperm in Hnd. simpl in Hnd.
  apply NoDup_cons in Hnd as [Hnotin _].
  assert (Hid : id x <> id r).
  { intros Heq. apply Hnotin. rewrite <- Heq. by apply list_elem_of_fmap_2. }
  unfold sortByPriority in Hmin.
  destruct (Z.eqb_spec (PRIORITY_ORDER (priority r) - PRIORITY_ORDER (priority x)) 0)
    as [Hz|Hz]; simpl in Hmin.
  - right. split; [|lia]. by destruct (priority x), (priority r).
  - left. lia.
Qed.

Lemma freshIds_push state path prio exec :
  freshIds state ->
  NoDup (map id (queue state ++
                 [{| id := nextId state; priority := prio; execute := exec;
                     methodPath := path |}])).
Proof.
  intros [Hlt Hnd]. rewrite map_app. apply NoDup_app. split; [done|]. split.
  - intros i Hi Hin. simpl in Hin. apply list_elem_of_singleton in Hin as ->.
    apply list_elem_of_fmap in Hi as (r & Hr & Hin).
    rewrite Forall_forall in Hlt. specialize (Hlt r Hin). lia.
  - simpl. apply NoDup_singleton.
Qed.

End QueueBounds.

(** ** What the rate limiter keeps *)

Section LimiterBounds.
Import JsNum RateLimiter.
Implicit Types (state : RateLimiterState) (methodPath other : string).

Lemma writeBucket_buckets_other held methodPath bucket state other :
  other <> methodPath ->
  buckets (writeBucket held methodPath bucket state) !! other =
    buckets state !! other.
Proof. intros Hne. destruct held; [|done]. simpl. by rewrite lookup_insert_ne. Qed.

(** An attempt on a path leaves the bucket and the count of every other
    path as they were. *)
Lemma tryAcquire_other state methodPath now other :
  other <> methodPath ->
  buckets (tryAcquire state methodPath now).1 !! other = buckets state !! other /\
  concurrentCount (tryAcquire state methodPath now).1 !! other =
    concurrentCount state !! other.
Proof.
  intros Hne. unfold tryAcquire. destruct (_ && _); [done|].
  pose proof (getBucket_buckets_other state methodPath now other Hne) as Hb.
  pose proof (getBucket_counts state methodPath now) as Hc.
  destruct (getBucket state methodPath now) as [[st1 b0] held].
  simpl in Hb, Hc. destruct (ge _ _); simpl.
  - rewrite writeBucket_buckets_other, writeBucket_counts, Hb, Hc by done.
    by rewrite lookup_insert_ne.
  - by rewrite writeBucket_buckets_other, writeBucket_counts, Hb, Hc.
Qed.

(** What an attempt answers depends on the configuration and on the bucket
    and the count of its own path only. *)
Lemma tryAcquire_local state1 state2 methodPath now :
  config state1 = config state2 ->
  buckets state1 !! methodPath = buckets state2 !! methodPath ->
  concurrentCount state1 !! methodPath = concurrentCount state2 !! methodPath ->
  (tryAcquire state1 methodPath now).2 = (tryAcquire state2 methodPath now).2.
Proof.
  intros Hc Hb Hn. unfold tryAcquire, currentCount, getBucket.
  rewrite Hc, Hb, Hn. destruct (_ && _); [done|].
  destruct (getConfigForMethod (config state2) methodPath);
    [destruct (buckets state2 !! methodPath)|]; simpl;
    by destruct (ge _ _).
Qed.

Lemma decrementConcurrent_other state methodPath other :
  other <> methodPath ->
  concurrentCount (decrementConcurrent state methodPath) !! other =
    concurrentCount state !! other.
Proof. intros Hne. simpl. by rewrite lookup_insert_ne. Qed.


Lemma truthy_ofZ n : n <> 0%Z -> truthy (ofZ n) = true.
Proof.
  intros Hn. unfold truthy, ofZ, isZero. apply negb_true_iff.
  destruct (Qeq_bool (inject_Z n) 0) eqn:H; [|done].
  apply Qeq_bool_iff in H. unfold Qeq in H. simpl in H. lia.
Qed.

(** With a whole, positive cap on a path, an attempt and a completion keep
    the count of the path between zero and the cap. *)
Lemma cap_kept state methodPath c n :
  getConfigForMethod (config state) methodPath = Some c ->
  concurrency c = Some (ofZ n) -> (0 < n)%Z ->
  (0 <= currentCount state methodPath <= n)%Z ->
  (forall other now,
      (0 <= currentCount (tryAcquire state other now).1 methodPath <= n)%Z) /\
  (forall other,
      (0 <= currentCount (decrementConcurrent state other) methodPath <= n)%Z).
Proof.
  intros Hc Hn Hpos Hcount. split.
  - intros other now. destruct (decide (other = methodPath)) as [->|Hne].
    + assert (Hcap : capOf state methodPath = Some (ofZ n)).
      { unfold capOf. rewrite Hc. simpl. rewrite Hn.
        rewrite truthy_ofZ by lia. done. }
      destruct (ge (ofZ (currentCount state methodPath)) (ofZ n)) eqn:Hge.
      * by rewrite (tryAcquire_capped _ _ now _ Hcap Hge).
      * assert (~ (n <= currentCount state methodPath)%Z)
          by (rewrite <- ge_ofZ; congruence).
        rewrite tryAcquire_uncapped
          by (intros cap; rewrite Hcap; by intros [= <-]).
        pose proof (getBucket_counts state methodPath now) as Hcounts.
        destruct (getBucket state methodPath now) as [[st1 b0] held].
        simpl in Hcounts.
        cbv zeta.
        destruct (ge (tokens (refillBucket b0 now)) (ofZ 1)); cbn [fst snd].
        -- rewrite currentCount_increment, decide_True by done.
           unfold currentCount in *. rewrite writeBucket_counts, Hcounts. lia.
        -- unfold currentCount in *. by rewrite writeBucket_counts, Hcounts.
    + unfold currentCount.
      by rewrite (proj2 (tryAcquire_other state other now methodPath
                           (not_eq_sym Hne))).
  - intros other. unfold currentCount, decrementConcurrent in *.
    cbn [concurrentCount].
    destruct (decide (other = methodPath)) as [->|Hne].
    + rewrite lookup_insert_eq. cbn [default from_option id].
      unfold currentCount in *. lia.
    + by rewrite lookup_insert_ne.
Qed.










(** X8: limits are kept per method path, also under a flat
    configuration: what an attempt on a path is answered does not depend
    on the attempts and the completions there have been on other paths. *)
Theorem paths_do_not_share_limits (state : RateLimiterState) (p q : string)
    (t1 t2 : Z) :
  p <> q ->
  (tryAcquire (tryAcquire state p t1).1 q t2).2 = (tryAcquire state q t2).2 /\
  (tryAcquire (decrementConcurrent state p) q t2).2 = (tryAcquire state q t2).2.
Proof.
  intros Hne. split.
  - apply tryAcquire_local.
    + apply tryAcquire_config.
    + by apply tryAcquire_other.
    + by apply tryAcquire_other.
  - apply tryAcquire_local; [done|done|]. by apply decrementConcurrent_other.
Qed.




End LimiterBounds.

(** ** What every state of a wrapper keeps *)

Section ReachableFacts.
Import Js JsNum Trace Types State Wrap Solo Machine.
Context {U : Type}.
Implicit Types (s : Shared U) (call : Call U) (q : Queue.QueueState (Call U)).

Lemma runOps_ind (P : Shared U -> Prop) (ops : list (Op U)) s :
  P s -> (forall s' op, op ∈ ops -> P s' -> P (step s' op)) ->
  P (runOps s ops).
Proof.
  revert s. induction ops as [|op ops IH]; intros s Hs Hstep; [done|].
  simpl. apply IH.
  - apply Hstep; [left|done].
  - intros s' op' Hin. apply Hstep. by right.
Qed.

Lemma queueState_waitForRateLimit s path now :
  queueState (waitForRateLimit s path now).1 = queueState s.
Proof.
  unfold waitForRateLimit. destruct (rateLimiter s) as [limiter|]; [|done].
  destruct (RateLimiter.tryAcquire limiter path now) as [limiter' result].
  by destruct (RateLimiter.canProceed result).
Qed.

Lemma queueState_executeCore s path now :
  queueState (executeCore s path now).1 = queueState s.
Proof. unfold executeCore. by rewrite queueState_waitForRateLimit. Qed.

Lemma queueState_emitCompletion s path startTime now :
  queueState (emitCompletion s path startTime now) = queueState s.
Proof. unfold emitCompletion. simpl. by destruct (rateLimiter s). Qed.

Lemma queueState_begin s started now :
  queueState (begin s started now).1 = queueState s.
Proof.
  unfold begin. destruct started as [request|]; [|done].
  pose proof (queueState_executeCore s (Queue.methodPath request) now) as H.
  by destruct (executeCore s _ now).
Qed.

(** The queue of a wrapper changes through the operations of [queue.ts]
    only. *)
Lemma queueState_step s (op : Op U) :
  queueState (step s op) = queueStep op <$> queueState s.
Proof.
  destruct op as [call now|path now|path startTime now|now| |now| |event handler
                 |event handler]; simpl; unfold queueStep.
  - unfold executeWithHooks.
    destruct (checkMethodAccess _ _); [simpl; by destruct (queueState s)|].
    destruct (queueState s) as [q|] eqn:Hq; simpl.
    + destruct (Queue.enqueue q _ _ _) as [message|requestId q' started]; [done|].
      pose proof (queueState_begin (withQueue (emitEvent s
                    (Queued (methodPath call) (Queue.getQueueSize q + 1)))
                    (Some q')) started now) as H.
      by destruct (begin _ started now).
    + pose proof (queueState_executeCore s (methodPath call) now) as H.
      destruct (executeCore s _ now). simpl in *. congruence.
  - rewrite queueState_waitForRateLimit. by destruct (queueState s).
  - rewrite queueState_emitCompletion. by destruct (queueState s).
  - unfold settleQueued. destruct (queueState s) as [q|] eqn:Hq; [|done].
    simpl. destruct (Queue.settle q) as [q' started]. by rewrite queueState_begin.
  - unfold pause. by destruct (queueState s) as [q|] eqn:Hq.
  - unfold resume. destruct (queueState s) as [q|] eqn:Hq; [|done].
    simpl. destruct (Queue.resumeQueue q) as [q' started].
    by rewrite queueState_begin.
  - unfold clear. by destruct (queueState s) as [q|] eqn:Hq.
  - by destruct (queueState s).
  - unfold createOff. destruct (listeners s !! event); by destruct (queueState s).
Qed.

(** The rate limiter of a wrapper changes through acquisition attempts and
    through the release of a completion only: what both keep holds in every
    state. *)
Section LimiterInvariant.
Variable P : RateLimiter.RateLimiterState -> Prop.
Hypothesis Htry :
  forall l path now, P l -> P (RateLimiter.tryAcquire l path now).1.
Hypothesis Hdec :
  forall l path, P l -> P (RateLimiter.decrementConcurrent l path).

Lemma limiter_waitForRateLimit s path now :
  (exists l, rateLimiter s = Some l /\ P l) ->
  exists l, rateLimiter (waitForRateLimit s path now).1 = Some l /\ P l.
Proof.
  intros (l & Hl & HP). unfold waitForRateLimit. rewrite Hl.
  pose proof (Htry l path now HP) as H'.
  destruct (RateLimiter.tryAcquire l path now) as [l' result].
  destruct (RateLimiter.canProceed result); simpl; eauto.
Qed.

Lemma limiter_executeCore s path now :
  (exists l, rateLimiter s = Some l /\ P l) ->
  exists l, rateLimiter (executeCore s path now).1 = Some l /\ P l.
Proof. intros H. unfold executeCore. by apply limiter_waitForRateLimit. Qed.

Lemma limiter_begin s started now :
  (exists l, rateLimiter s = Some l /\ P l) ->
  exists l, rateLimiter (begin s started now).1 = Some l /\ P l.
Proof.
  intros H. unfold begin. destruct started as [request|]; [|done].
  pose proof (limiter_executeCore s (Queue.methodPath request) now H) as H'.
  by destruct (executeCore s _ now).
Qed.

Lemma limiter_step s (op : Op U) :
  (exists l, rateLimiter s = Some l /\ P l) ->
  exists l, rateLimiter (step s op) = Some l /\ P l.
Proof.
  intros H. destruct op; simpl.
  - unfold executeWithHooks. destruct (checkMethodAccess _ _); [done|].
    destruct (queueState s) as [q|].
    + destruct (Queue.enqueue q _ _ _) as [message|requestId q' started];
        [done|].
      match goal with |- context [begin ?x ?y ?z] =>
        pose proof (limiter_begin x y z H) as H'; by destruct (begin x y z) end.
    + pose proof (limiter_executeCore s (methodPath call) now H) as H'.
      by destruct (executeCore s _ now).
  - by apply limiter_waitForRateLimit.
  - unfold emitCompletion. simpl. destruct H as (l & -> & HP). simpl. eauto.
  - unfold settleQueued. destruct (queueState s) as [q|]; [|done].
    destruct (Queue.settle q). by apply limiter_begin.
  - unfold pause. by destruct (queueState s).
  - unfold resume. destruct (queueState s) as [q|]; [|done].
    destruct (Queue.resumeQueue q). by apply limiter_begin.
  - unfold clear. by destruct (queueState s).
  - done.
  - unfold createOff. by destruct (listeners s !! event).
Qed.

Lemma reachable_limiter (cfg : option (WrapConfig U)) lc (ops : list (Op U)) :
  cfg ≫= rateLimit = Some lc -> P (RateLimiter.createRateLimiter lc) ->
  exists l, rateLimiter (runOps (createInitialState cfg) ops) = Some l /\ P l.
Proof.
  intros Hcfg H0.
  apply (runOps_ind (fun s => exists l, rateLimiter s = Some l /\ P l)).
  - exists (RateLimiter.createRateLimiter lc). split; [|done].
    simpl. by rewrite Hcfg.
  - intros s op _. apply limiter_step.
Qed.

End LimiterInvariant.

Lemma reachable_queue (P : Queue.QueueState (Call U) -> Prop) cfg qc ops :
  cfg ≫= queue = Some qc -> P (Queue.createQueue qc) ->
  (forall q op, op ∈ ops -> P q -> P (queueStep op q)) ->
  exists q, queueState (runOps (createInitialState cfg) ops) = Some q /\ P q.
Proof.
  intros Hcfg H0 Hstep.
  apply (runOps_ind (fun s => exists q, queueState s = Some q /\ P q)).
  - exists (Queue.createQueue qc). split; [|done]. simpl. by rewrite Hcfg.
  - intros s op Hin (q & Hq & HP). exists (queueStep op q).
    split; [|by apply Hstep]. by rewrite queueState_step, Hq.
Qed.

Lemma queueStep_invariant (P : Queue.QueueState (Call U) -> Prop) :
  (forall q, P q ->
     (forall path prio exec,
         P (Queue.afterEnqueue q (Queue.enqueue q path prio exec))) /\
     P (Queue.settle q).1 /\ P (Queue.pauseQueue q) /\
     P (Queue.resumeQueue q).1 /\ P (Queue.clearQueue q).1) ->
  forall q (op : Op U), P q -> P (queueStep op q).
Proof.
  intros Hkept q op HP.
  destruct (Hkept q HP) as (Henq & Hsettle & Hpause & Hresume & Hclear).
  destruct op; simpl; try done.
  destruct (checkMethodAccess _ _); [done|]. apply Henq.
Qed.

(** X10: on a wrapper whose queue is configured with a whole number [n] of
    slots, [queue.pending] never exceeds [n], whatever is called, settled,
    paused, resumed or cleared, and in whatever order. *)
Theorem pending_never_exceeds_concurrency (cfg : option (WrapConfig U))
    (qc : Queue.QueueConfig) (n : Z) (ops : list (Op U)) :
  cfg ≫= queue = Some qc -> Queue.concurrency qc = Some (ofZ n) -> (0 <= n)%Z ->
  exists q,
    queueState (runOps (createInitialState cfg) ops) = Some q /\
    (Queue.getRunningCount q <= n)%Z.
Proof.
  intros Hcfg Hn Hpos.
  destruct (reachable_queue
              (fun q => Queue.config q = qc /\ (Queue.running q <= n)%Z)
              cfg qc ops Hcfg) as (q & Hq & _ & Hr); [done| |by exists q].
  intros q op _. revert q op. apply queueStep_invariant. intros q HP.
  apply (queue_invariant
           (fun q => Queue.config q = qc /\ (Queue.running q <= n)%Z));
    try done.
  - intros st [Hc Hr]. destruct (processNext_fields st) as (-> & _).
    split; [done|]. apply processNext_running; [by rewrite Hc|done].
  - intros st [Hc Hr]. simpl. split; [done|lia].
Qed.


(** X12: as long as [queue.pause] has not been called, no request waits
    while a slot is free: in every state the queue is empty or [running] has
    reached [concurrency]. *)
Theorem unpaused_queue_leaves_no_slot_idle (cfg : option (WrapConfig U))
    (qc : Queue.QueueConfig) (ops : list (Op U)) :
  cfg ≫= queue = Some qc -> Forall (fun op => op <> PauseOp) ops ->
  exists q,
    queueState (runOps (createInitialState cfg) ops) = Some q /\
    Queue.paused q = false /\
    (Queue.queue q = [] \/
     ge (ofZ (Queue.running q))
        (default PInf (Queue.concurrency (Queue.config q))) = true).
Proof.
  intros Hcfg Hops.
  destruct (reachable_queue
              (fun q => Queue.paused q = false /\ Queue.drained q)
              cfg qc ops Hcfg) as (q & Hq & Hp & Hd).
  - split; [done|]. apply canProcessNext_false. auto.
  - intros q op Hin [Hp Hd]. rewrite Forall_forall in Hops.
    specialize (Hops op Hin).
    destruct op; simpl; try done.
    + destruct (checkMethodAccess _ _); [done|]. split.
      * unfold Queue.enqueue. destruct (ge _ _); [done|].
        match goal with |- context [Queue.processNext ?s1] =>
          destruct (processNext_fields s1) as (_ & H & _);
          destruct (Queue.processNext s1) end.
        simpl in *. congruence.
      * by apply enqueue_keeps_drained.
    + split; [|by apply settle_keeps_drained].
      unfold Queue.settle.
      match goal with |- context [Queue.processNext ?s1] =>
        destruct (processNext_fields s1) as (_ & H & _) end.
      by rewrite H.
    + unfold Queue.resumeQueue.
      match goal with |- context [Queue.processNext ?s1] =>
        assert (Queue.canProcessNext s1 = false) as Hs1
          by (unfold Queue.drained, Queue.canProcessNext in *;
              cbn [Queue.paused Queue.running Queue.config Queue.queue];
              by rewrite Hp in Hd);
        destruct (processNext_cases s1) as [[_ ->]|[Hcan _]]; [|congruence]
      end.
      split; [done|exact Hs1].
    + split; [done|]. apply canProcessNext_false. auto.
  - exists q. split; [done|]. split; [done|].
    apply canProcessNext_false in Hd as [Hd|[Hd|Hd]]; [congruence|auto|auto].
Qed.

Lemma reachable_freshIds cfg ops q :
  queueState (runOps (createInitialState cfg) ops) = Some q -> Queue.freshIds q.
Proof.
  revert q.
  apply (runOps_ind (fun s => forall q, queueState s = Some q -> Queue.freshIds q)).
  - intros q. simpl. destruct (cfg ≫= queue) as [qc|]; [|done].
    intros [= <-]. split; constructor.
  - intros s op _ IH q. rewrite queueState_step.
    destruct (queueState s) as [q0|]; [|done]. intros [= <-].
    apply queueStep_invariant; [|by apply IH]. apply freshIds_kept.
Qed.

(** X13: whenever a trigger of the queue starts a request (the settling of
    a running request, [queue.resume], or the arrival of a call), the
    request started is the most urgent of those waiting: every request
    left in the queue has a lower priority, or the same priority and a
    later arrival. *)
Theorem most_urgent_request_starts_first (cfg : option (WrapConfig U))
    (ops : list (Op U)) q :
  queueState (runOps (createInitialState cfg) ops) = Some q ->
  (forall q' r, Queue.settle q = (q', Some r) ->
     Queue.startsFirst r (Queue.queue q) (Queue.queue q')) /\
  (forall q' r, Queue.resumeQueue q = (q', Some r) ->
     Queue.startsFirst r (Queue.queue q) (Queue.queue q')) /\
  (forall path prio exec requestId q' r,
     Queue.enqueue q path prio exec = Queue.Accepted requestId q' (Some r) ->
     Queue.startsFirst r
       (Queue.queue q ++
        [{| Queue.id := requestId; Queue.priority := prio;
            Queue.execute := exec; Queue.methodPath := path |}])
       (Queue.queue q')).
Proof.
  intros Hq. pose proof (reachable_freshIds _ _ _ Hq) as Hfresh.
  split_and!.
  - intros q' r H. apply processNext_startsFirst in H; [done|apply Hfresh].
  - intros q' r H. apply processNext_startsFirst in H; [done|apply Hfresh].
  - intros path prio exec requestId q' r. unfold Queue.enqueue.
    destruct (ge _ _); [done|].
    pose proof (freshIds_push q path prio exec Hfresh) as Hnd.
    match goal with |- context [Queue.processNext ?s1] =>
      pose proof (processNext_startsFirst s1) as Hstart;
      destruct (Queue.processNext s1) as [q1 started] end.
    intros [= <- <- ->]. by apply Hstart.
Qed.

(** X14: a queue configured with [concurrency: 0] never starts anything:
    [concurrency ?? Infinity] keeps the zero, no slot is ever free, and
    every call that is let in stays in the queue. *)
Theorem concurrency_zero_starts_nothing (cfg : option (WrapConfig U))
    (qc : Queue.QueueConfig) (ops : list (Op U)) :
  cfg ≫= queue = Some qc -> Queue.concurrency qc = Some (ofZ 0) ->
  Forall (fun op => forall now, op <> SettleOp now) ops ->
  let s := runOps (createInitialState cfg) ops in
  exists q,
    queueState s = Some q /\ Queue.getRunningCount q = 0%Z /\
    forall call now requestId started,
      (executeWithHooks s call now).2 = InQueue requestId started ->
      started = None.
Proof.
  intros Hcfg Hzero Hops s.
  assert (Hstuck : forall st : Queue.QueueState (Call U),
             Queue.config st = qc -> Queue.running st = 0%Z ->
             Queue.processNext st = (st, None)).
  { intros st Hc Hr.
    destruct (processNext_cases st) as [[_ ->]|[Hcan _]]; [done|].
    unfold Queue.canProcessNext in Hcan. rewrite Hc, Hzero, Hr in Hcan.
    simpl in Hcan. by destruct (Queue.paused st). }
  destruct (reachable_queue
              (fun q => Queue.config q = qc /\ Queue.running q = 0%Z)
              cfg qc ops Hcfg) as (q & Hq & Hc & Hr); [done| |].
  - intros q op Hin [Hc Hr]. rewrite Forall_forall in Hops.
    specialize (Hops op Hin). destruct op; simpl; try done.
    + destruct (checkMethodAccess _ _); [done|]. unfold Queue.enqueue.
      destruct (ge _ _); [done|]. by rewrite Hstuck.
    + by destruct (Hops now).
    + unfold Queue.resumeQueue. by rewrite Hstuck.
  - exists q. split; [done|]. split; [done|].
    intros call now requestId started. subst s. unfold executeWithHooks.
    destruct (checkMethodAccess _ _); [done|]. rewrite Hq.
    unfold Queue.enqueue. destruct (ge _ _); [done|]. rewrite Hstuck by done.
    simpl. by intros [= _ <-].
Qed.


(** X16: with a whole, positive [concurrency] in the rate-limit entry of a
    method path, the in-flight count of the path never leaves the range from
    zero to that cap, whatever the wrapper goes through. *)
Theorem inflight_never_exceeds_cap (cfg : option (WrapConfig U))
    (lc : RateLimiter.Config) (ops : list (Op U)) (path : string)
    (c : RateLimiter.RateLimitConfig) (n : Z) :
  cfg ≫= rateLimit = Some lc ->
  RateLimiter.getConfigForMethod lc path = Some c ->
  RateLimiter.concurrency c = Some (ofZ n) -> (0 < n)%Z ->
  exists l,
    rateLimiter (runOps (createInitialState cfg) ops) = Some l /\
    (0 <= RateLimiter.currentCount l path <= n)%Z.
Proof.
  intros Hcfg Hc Hn Hpos.
  destruct (reachable_limiter
              (fun l => RateLimiter.config l = lc /\
                        (0 <= RateLimiter.currentCount l path <= n)%Z))
    with (cfg := cfg) (lc := lc) (ops := ops) as (l & Hl & _ & Hcount);
    [| |done| |by exists l].
  - intros l p now [Hcl Hcount]. split; [by rewrite tryAcquire_config|].
    rewrite <- Hcl in Hc. by apply (cap_kept l path c n).
  - intros l p [Hcl Hcount]. split; [done|].
    rewrite <- Hcl in Hc. by apply (cap_kept l path c n).
  - split; [done|]. unfold RateLimiter.currentCount. simpl.
    rewrite lookup_empty. simpl. lia.
Qed.


(** *** Listeners *)












(** *** Statistics *)






Lemma total_snoc l d : total (l ++ [d]) = (total l + d)%Z.
Proof. unfold total. induction l as [|x l IH]; simpl; [lia|]. rewrite IH. lia. Qed.






End ReachableFacts.

(** ** Waiting for the rate limiter *)

Section WaitFacts.
Import Js JsNum Trace Types State Wrap Solo Machine.
Context {U : Type}.



End WaitFacts.

Section ReachableRuns.
Import Js JsNum Trace Types State Wrap Solo Machine Samples.

(** Three calls at once on a queue of one slot. *)
Lemma pending_never_exceeds_concurrency_witness :
  exists q,
    queueState (runOps (createInitialState oneSlotConfig)
                  (threeCalls oneSlotConfig)) = Some q /\
    (Queue.getRunningCount q <= 1)%Z.
Proof.
  apply (pending_never_exceeds_concurrency oneSlotConfig Queue.oneSlot 1
           (threeCalls oneSlotConfig)); [reflexivity|reflexivity|lia].
Defined.


Lemma unpaused_queue_leaves_no_slot_idle_witness :
  exists q,
    queueState (runOps (createInitialState oneSlotConfig)
                  (threeCalls oneSlotConfig)) = Some q /\
    Queue.paused q = false /\
    (Queue.queue q = [] \/
     ge (ofZ (Queue.running q))
        (default PInf (Queue.concurrency (Queue.config q))) = true).
Proof.
  apply (unpaused_queue_leaves_no_slot_idle oneSlotConfig Queue.oneSlot
           (threeCalls oneSlotConfig)); [reflexivity|].
  repeat constructor; discriminate.
Defined.

(** Three calls of priorities low, high and normal behind a pause. *)
Lemma most_urgent_request_starts_first_witness :
  let q := default (Queue.createQueue Queue.oneSlot)
             (queueState (runOps (createInitialState oneSlotConfig)
                            (pausedCalls oneSlotConfig))) in
  (forall q' r, Queue.settle q = (q', Some r) ->
     Queue.startsFirst r (Queue.queue q) (Queue.queue q')) /\
  (forall q' r, Queue.resumeQueue q = (q', Some r) ->
     Queue.startsFirst r (Queue.queue q) (Queue.queue q')) /\
  (forall path prio exec requestId q' r,
     Queue.enqueue q path prio exec = Queue.Accepted requestId q' (Some r) ->
     Queue.startsFirst r
       (Queue.queue q ++
        [{| Queue.id := requestId; Queue.priority := prio;
            Queue.execute := exec; Queue.methodPath := path |}])
       (Queue.queue q')).
Proof.
  apply (most_urgent_request_starts_first oneSlotConfig
           (pausedCalls oneSlotConfig)).
  reflexivity.
Defined.

Lemma concurrency_zero_starts_nothing_witness :
  let s := runOps (createInitialState noSlotConfig) (threeCalls noSlotConfig) in
  exists q,
    queueState s = Some q /\ Queue.getRunningCount q = 0%Z /\
    forall call now requestId started,
      (executeWithHooks s call now).2 = InQueue requestId started ->
      started = None.
Proof.
  apply (concurrency_zero_starts_nothing noSlotConfig
           {| Queue.concurrency := Some (ofZ 0); Queue.timeout := None;
              Queue.maxSize := None |} (threeCalls noSlotConfig));
    [reflexivity|reflexivity|].
  repeat constructor; discriminate.
Defined.


(** Three calls at once under a cap of two and a rate of a thousand per
    second. *)
Lemma inflight_never_exceeds_cap_witness :
  exists l,
    rateLimiter
      (runOps (createInitialState (limiterConfig RateLimiter.capAndRate))
         (threeCalls (limiterConfig RateLimiter.capAndRate))) = Some l /\
    (0 <= RateLimiter.currentCount l "chat.completions.create" <= 2)%Z.
Proof.
  apply (inflight_never_exceeds_cap (limiterConfig RateLimiter.capAndRate)
           RateLimiter.capAndRate
           (threeCalls (limiterConfig RateLimiter.capAndRate))
           "chat.completions.create"
           {| RateLimiter.requestsPerSecond := Some (ofZ 1000);
              RateLimiter.requestsPerMinute := None;
              RateLimiter.concurrency := Some (ofZ 2) |} 2);
    [reflexivity|reflexivity|reflexivity|lia].
Defined.


End ReachableRuns.

Section LimiterRuns.
Import Js JsNum Trace Types State Wrap Solo RateLimiter.


Lemma paths_do_not_share_limits_witness :
  (tryAcquire (tryAcquire (createRateLimiter twoPerSecond) "fast" 0).1 "slow" 0).2 =
    (tryAcquire (createRateLimiter twoPerSecond) "slow" 0).2 /\
  (tryAcquire (decrementConcurrent (createRateLimiter twoPerSecond) "fast")
     "slow" 0).2 =
    (tryAcquire (createRateLimiter twoPerSecond) "slow" 0).2.
Proof.
  apply (paths_do_not_share_limits (createRateLimiter twoPerSecond)
           "fast" "slow" 0 0).
  discriminate.
Defined.



End LimiterRuns.

(** ** Hooks that throw *)

Section PipelineMore.
Import Js JsNum Trace Types State Wrap.
Context {U : Type}.
Implicit Types (w : World U) (u : U) (ctx : Plugin.PluginContext).
Local Open Scope pipeline_scope.

(** The loop of [runPluginsBefore] over plugins whose [before] hooks have
    returned. *)
Lemma beforeLoop_paired ctx u (plugins : list (Plugin.Plugin U)) new u1 :
  Plugin.paired ctx u plugins new u1 ->
  forall rest executions l,
    Plugin.beforeLoop (plugins ++ rest) ctx executions {| user := u; log := l |} =
    Plugin.beforeLoop rest ctx (executions ++ new)
      {| user := u1; log := l ++ Plugin.beforeEvents new |}.
Proof.
  induction 1 as [u|p plugins hook u u1 c new u' Hb Hrun _ IH
                  |p plugins u new u' Hb _ IH]; intros rest executions l.
  - simpl. by rewrite !app_nil_r.
  - simpl. rewrite Hb. unfold bind at 1, run. simpl. rewrite Hrun.
    unfold bind at 1, record. simpl. rewrite IH.
    unfold Plugin.beforeEvents. simpl. unfold Plugin.beforeEvent at 2. simpl.
    rewrite Hb. simpl. by rewrite <- !app_assoc.
  - simpl. rewrite Hb, IH.
    unfold Plugin.beforeEvents. simpl. unfold Plugin.beforeEvent at 2. simpl.
    rewrite Hb. simpl. by rewrite <- !app_assoc.
Qed.

(** X21: what the global [before] hook throws rejects the call as it is:
    the wrapped callable is not called, no plugin hook runs, and no
    [onError] hook, global or of a plugin, sees the error, since the hook
    runs outside the [try] of [runMethodWithPlugins]. *)
Theorem throwing_before_hook_reaches_no_handler (call : Call U) w
    (hook : string -> list value -> eff U (option (list value))) u' (err : value) :
  (config (view call) ≫= hooks) ≫= before = Some hook ->
  hook (methodPath call) (args call) (user w) = (u', inr err) ->
  runHooks call w =
    ({| user := u';
        log := log w ++ [GlobalBefore (methodPath call) (args call)] |},
     inr err).
Proof.
  intros Hb Hrun. unfold runHooks, bind at 1, runBeforeHook. rewrite Hb.
  unfold bind, record, run. simpl. by rewrite Hrun.
Qed.

(** X22: what the [before] hook of a plugin throws rejects the call as it
    is: the plugins after it are not entered, the wrapped callable is not
    called, and the plugins whose [before] had returned get neither their
    [after] nor their [onError]; the global [onError] is not called
    either. *)
Theorem throwing_plugin_before_unwinds_nothing (call : Call U) w w0
    (finalArgs : list value) (entered rest : list (Plugin.Plugin U))
    (p : Plugin.Plugin U) (executions : list (Plugin.PluginExecution U))
    (hook : Plugin.PluginContext -> eff U value) u1 u2 (err : value) :
  let ctx := {| Plugin.method := methodPath call; Plugin.args := finalArgs;
                Plugin.result := None |} in
  runBeforeHook (config (view call) ≫= hooks) (methodPath call) (args call) w =
    (w0, inl finalArgs) ->
  plugins (view call) = entered ++ p :: rest ->
  Plugin.paired ctx (user w0) entered executions u1 ->
  Plugin.before p = Some hook -> hook ctx u1 = (u2, inr err) ->
  runHooks call w =
    ({| user := u2; log := log w0 ++ Plugin.beforeEvents executions |}, inr err).
Proof.
  cbv zeta. intros Hb Hplugins Hpaired Hp Hrun.
  unfold runHooks, bind at 1. rewrite Hb. unfold bind at 1.
  unfold Plugin.runPluginsBefore. rewrite Hplugins. destruct w0 as [u0 l0].
  rewrite (beforeLoop_paired _ _ _ _ _ Hpaired). simpl. rewrite Hp.
  unfold bind, run. simpl. by rewrite Hrun.
Qed.



End PipelineMore.

Section PipelineMoreRuns.
Import Js JsNum Trace Types State Wrap Samples.

(** Three plugins and a global [onError] around a call whose global
    [before] throws. *)
Lemma throwing_before_hook_reaches_no_handler_witness :
  runHooks
    (callOf (threePlugins (configOf (Some beforeThrowsHooks) None)) succeeding)
    emptyWorld =
    ({| user := [0]; log := [GlobalBefore "chat.completions.create" []] |},
     inr (VError "before failed")).
Proof.
  apply (throwing_before_hook_reaches_no_handler
           (callOf (threePlugins (configOf (Some beforeThrowsHooks) None))
              succeeding)
           emptyWorld (fun _ _ => raise 0 "before failed") [0]
           (VError "before failed")).
  - reflexivity.
  - reflexivity.
Defined.

(** Three plugins, the second of which throws in [before], and a global
    [onError]. *)
Lemma throwing_plugin_before_unwinds_nothing_witness :
  runHooks
    (callOf (around beforeThrows (configOf (Some fallbackHooks) None)) succeeding)
    emptyWorld =
    ({| user := [1; 2]; log := [PluginBefore "p1" (VNum 1)] |},
     inr (VError "before failed")).
Proof.
  apply (throwing_plugin_before_unwinds_nothing
           (callOf (around beforeThrows (configOf (Some fallbackHooks) None))
              succeeding)
           emptyWorld emptyWorld [] [numbered "p1" 1] [numbered "p3" 3]
           beforeThrows
           [ {| Plugin.plugin := numbered "p1" 1; Plugin.context := VNum 1 |} ]
           (fun _ => raise 2 "before failed") [1] [1; 2]
           (VError "before failed")).
  - reflexivity.
  - reflexivity.
  - eapply Plugin.paired_before; [reflexivity|reflexivity|].
    apply Plugin.paired_nil.
  - reflexivity.
  - reflexivity.
Defined.



End PipelineMoreRuns.

Section ProxyRuns.
Import Js JsNum Types State Wrap Str Proxy Samples.

Lemma method_path_is_the_dotted_names_witness :
  access (rootContext None) openai ["chat"; "completions"; "create"] =
    Some (Wrapped succeeding (initialView None)
            (joinPath (map list_ascii_of_string ["chat"; "completions"; "create"]))).
Proof.
  apply (method_path_is_the_dotted_names (initialView None) openai
           ["chat"; "completions"; "create"] succeeding).
  - repeat constructor; try discriminate;
      apply (bool_decide_unpack _); vm_compute; exact I.
  - reflexivity.
Defined.

(** The method the client keeps under [chat.on]. *)
Lemma wrapper_names_shadow_the_client_witness :
  exists w, WrapperProp (U := list nat) OnFn = WrapperProp w.
Proof.
  apply (wrapper_names_shadow_the_client ["chat"; "on"] (rootContext None) openai
           (WrapperProp OnFn)).
  - apply Exists_cons_tl, Exists_cons_hd. apply (bool_decide_unpack _).
    vm_compute. exact I.
  - reflexivity.
Defined.

Lemma derived_view_starts_at_the_root_witness :
  let target := [ ("completions", Obj [ ("create", Fn succeeding) ]);
                  ("on", Fn succeeding) ] in
  let ctx := {| state := initialView None; rootClient := openai;
                path := "chat" |} in
  get ctx target "withOptions" =
    WrapperProp (WithOptionsFn (initialView None) openai) /\
  get ctx target "use" = WrapperProp (UseFn (initialView None) openai) /\
  forall names' (f : list value -> eff (list nat) value),
    Forall forwarded names' -> resolve openai names' = Some (Fn f) ->
    access (withOptions (initialView None) openai highPriority).2
      (withOptions (initialView None) openai highPriority).1 names' =
      Some (Wrapped f (createWithOptions (initialView None) highPriority)
              (joinPath (map list_ascii_of_string names'))) /\
    access (use (initialView None) openai (numbered "p1" 1)).2
      (use (initialView None) openai (numbered "p1" 1)).1 names' =
      Some (Wrapped f (createUse (initialView None) (numbered "p1" 1))
              (joinPath (map list_ascii_of_string names'))).
Proof.
  apply (derived_view_starts_at_the_root (initialView None) openai ["chat"]).
  reflexivity.
Defined.

(** A wrapper with a blocklist. *)
Lemma wrap_accepts_one_list_witness :
  createInitialState blockFiles = createInitialState blockFiles /\
  (openai, rootContext blockFiles) =
    (openai, {| state := initialView blockFiles; rootClient := openai;
                path := EmptyString |}) /\
  forall methodPath,
    checkMethodAccess (initialView blockFiles) methodPath =
      match blockFiles ≫= blocklist, blockFiles ≫= allowlist with
      | Some bl, _ =>
          if Glob.matchesAnyPattern methodPath bl
          then Some (VError (Glob.blockedReason methodPath)) else None
      | None, Some al =>
          if Glob.matchesAnyPattern methodPath al then None
          else Some (VError (Glob.notAllowedReason methodPath))
      | None, None => None
      end.
Proof.
  apply (proj2 (wrap_accepts_one_list openai blockFiles)
           (createInitialState blockFiles) (openai, rootContext blockFiles)).
  reflexivity.
Defined.

End ProxyRuns.
